(** * StandaloneAsio: a shallow embedding of [Source/Program/Main.cpp]

    The development follows the source file top to bottom:

    - [Parsing]: [TryParse<int>] (over a model of [std::stoi]) and
      [ApplicationConfig::Create];
    - [Effects]: the outcome type and the small state-and-fault monad in
      which the stateful classes are written;
    - [SessionModel]: class [Session] ([StartRead] and its completion
      handler, [Close], the destructor);
    - [ServerModel]: class [Server] ([StartAccept] and its completion
      handler, [ConnectionWaiting], [GetNextConnection]);
    - [Driver]: [RunServer], [RunClient] and [main];
    - [Reading]: the vocabulary of the statements;
    - the properties, one section per part of the program.

    Conventions.  C++ integers are [Z] with their wrap-around written out
    ([unsigned short] is reduced modulo 2^16, [uint64_t] modulo 2^64).  A
    [std::queue] is a list: [push] appends at the back, [front]/[pop] work
    at the head.  A [std::mutex] is a boolean "held" flag.  Diagnostic
    output ([Log], [Usage], the number-list demonstration at the top of
    [main]) is not modelled: no claim depends on it. *)

From Stdlib Require Import ZArith Ascii String List Lia Bool.
From stdpp Require Import base list strings.
Import ListNotations.
Open Scope Z_scope.

(* ===================================================================== *)
(** * Command line parsing *)
(* ===================================================================== *)

Module Parsing.

(** ** [std::stoi]

    [std::stoi(str)] is [std::strtol(str, &end, 10)] followed by a range
    check: leading white space is skipped, one optional sign is read, then
    the longest run of decimal digits.  No digit at all raises
    [std::invalid_argument]; a value that does not fit an [int] raises
    [std::out_of_range].  Whatever follows the digits is ignored. *)

Inductive stoi_result : Type :=
| stoi_value (v : Z)
| stoi_invalid_argument
| stoi_out_of_range.

Definition INT_MIN : Z := -2147483648.
Definition INT_MAX : Z := 2147483647.

(** [isspace] in the "C" locale: space, and the controls 9 to 13. *)
Definition isspace (c : ascii) : bool :=
  let n := Z.of_nat (nat_of_ascii c) in
  (n =? 32) || ((9 <=? n) && (n <=? 13)).

Definition digit_value (c : ascii) : option Z :=
  let n := Z.of_nat (nat_of_ascii c) in
  if (48 <=? n) && (n <=? 57) then Some (n - 48) else None.

Fixpoint skip_space (s : string) : string :=
  match s with
  | String c rest => if isspace c then skip_space rest else s
  | EmptyString => s
  end.

(** The longest digit prefix of [s], accumulated in base ten; [seen] tells
    whether a digit has been consumed. *)
Fixpoint read_digits (s : string) (acc : Z) (seen : bool) : option Z :=
  match s with
  | String c rest =>
      match digit_value c with
      | Some d => read_digits rest (10 * acc + d) true
      | None => if seen then Some acc else None
      end
  | EmptyString => if seen then Some acc else None
  end.

Definition read_sign (s : string) : bool * string :=
  match s with
  | String "-" rest => (true, rest)
  | String "+" rest => (false, rest)
  | _ => (false, s)
  end.

Definition stoi (str : string) : stoi_result :=
  let '(negative, body) := read_sign (skip_space str) in
  match read_digits body 0 false with
  | None => stoi_invalid_argument
  | Some magnitude =>
      let v := if negative then - magnitude else magnitude in
      if (INT_MIN <=? v) && (v <=? INT_MAX) then stoi_value v
      else stoi_out_of_range
  end.

(** ** [std::string_view]

    A view is a pointer and a size.  [sv_storage] holds the characters
    that lie in memory from [data()] on, to the end of the array the view
    points into; [sv_size] is the size of the view.  A function that
    takes [data()] as a C string reads [sv_storage] up to its first zero
    character, whatever the size of the view. *)
Record string_view : Type := mkStringView {
  sv_storage : string;
  sv_size : nat
}.

(** The conversion of a [std::string] to a view: the storage ends where
    the string ends. *)
Definition view_of_string (s : string) : string_view :=
  mkStringView s (String.length s).

(** The C string that starts where [s] starts. *)
Fixpoint c_str (s : string) : string :=
  match s with
  | EmptyString => EmptyString
  | String c rest => if Ascii.eqb c zero then EmptyString else String c (c_str rest)
  end.

(** ** [TryParse<int>]

    Only the [int] instantiation is used by the program.  The function
    returns [l_result] together with the final content of the reference
    parameter [p_Output], which is left alone on every failure path.  It
    tests the view for emptiness and then parses [p_String.data()], a C
    string: the size of the view plays no other part. *)
Definition TryParse (p_String : string_view) (p_Output : Z) : bool * Z :=
  match sv_size p_String with
  | O => (false, p_Output)                      (* empty string provided *)
  | S _ =>
      match stoi (c_str (sv_storage p_String)) with
      | stoi_value v => (true, v)
      | stoi_invalid_argument => (false, p_Output)
      | stoi_out_of_range => (false, p_Output)
      end
  end.

(** The call [TryParse<int>( *l_next, l_tempPort)] of [Create]: the
    argument is a [std::string], converted to a view. *)
Definition TryParse_int (p_String : string) (p_Output : Z) : bool * Z :=
  TryParse (view_of_string p_String) p_Output.

(** ** [ApplicationConfig] *)

Definition c_ServerString : string := "server".
Definition c_ClientString : string := "client".
Definition c_PortString : string := "port".
Definition c_AddressString : string := "address".

(** [using PortNumber = unsigned short]: the conversion from [int]. *)
Definition PortNumber_of_int (v : Z) : Z := v `mod` 65536.

Inductive Mode : Type := Unknown | Server | Client.

Record ApplicationConfig : Type := mkApplicationConfig {
  m_Mode : Mode;
  m_Address : string;
  m_Port : Z
}.

Definition c_DefaultAddressString : string := "127.0.0.1".
Definition c_DefaultPortNumber : Z := 7500.

(** The locals of [Create] that live across loop iterations. *)
Record CreateLocals : Type := mkCreateLocals {
  l_AddressFound : bool;
  l_Address : string;
  l_PortFound : bool;
  l_Port : Z;
  l_ModeFound : bool;
  l_Mode : Mode
}.

Definition CreateLocals_init : CreateLocals :=
  {| l_AddressFound := false; l_Address := c_DefaultAddressString;
     l_PortFound := false; l_Port := c_DefaultPortNumber;
     l_ModeFound := false; l_Mode := Unknown |}.

(** The four [if] statements of the loop body, in source order, for a
    token [l_Current] whose successor [l_next] exists. *)
Definition scan_address (l_Current l_next : string) (st : CreateLocals) : CreateLocals :=
  if negb (l_AddressFound st) && String.eqb l_Current c_AddressString
  then {| l_AddressFound := true; l_Address := l_next;
          l_PortFound := l_PortFound st; l_Port := l_Port st;
          l_ModeFound := l_ModeFound st; l_Mode := l_Mode st |}
  else st.

Definition scan_port (l_Current l_next : string) (st : CreateLocals) : CreateLocals :=
  if negb (l_PortFound st) && String.eqb l_Current c_PortString
  then
    let l_tempPort := 0 in
    let '(found, l_tempPort) := TryParse_int l_next l_tempPort in
    {| l_AddressFound := l_AddressFound st; l_Address := l_Address st;
       l_PortFound := found;
       l_Port := if found then PortNumber_of_int l_tempPort else l_Port st;
       l_ModeFound := l_ModeFound st; l_Mode := l_Mode st |}
  else st.

Definition scan_mode (l_Current token : string) (mode : Mode) (st : CreateLocals) : CreateLocals :=
  if negb (l_ModeFound st) && String.eqb l_Current token
  then {| l_AddressFound := l_AddressFound st; l_Address := l_Address st;
          l_PortFound := l_PortFound st; l_Port := l_Port st;
          l_ModeFound := true; l_Mode := mode |}
  else st.

Definition scan_token (l_Current l_next : string) (st : CreateLocals) : CreateLocals :=
  scan_mode l_Current c_ServerString Server
    (scan_mode l_Current c_ClientString Client
       (scan_port l_Current l_next
          (scan_address l_Current l_next st))).

(** The [for] loop: the iterator walks every token, and the body runs
    only where [l_itr + 1] is not the end of the vector. *)
Fixpoint scan_parameters (params : list string) (st : CreateLocals) : CreateLocals :=
  match params with
  | [] => st
  | l_Current :: rest =>
      match rest with
      | [] => scan_parameters rest st
      | l_next :: _ => scan_parameters rest (scan_token l_Current l_next st)
      end
  end.

Definition Create (p_ApplicationParameters : list string) : option ApplicationConfig :=
  match p_ApplicationParameters with
  | [] => None
  | _ =>
      let st := scan_parameters p_ApplicationParameters CreateLocals_init in
      if l_ModeFound st
      then Some (mkApplicationConfig (l_Mode st) (l_Address st) (l_Port st))
      else None                                   (* Mode Is required *)
  end.

End Parsing.


(* ===================================================================== *)
(** * Effects *)
(* ===================================================================== *)

Module Effects.

(** What can go wrong in a run.  The first three are undefined behaviour
    of the C++ library; the next two belong to the event loop; the last
    is an exception that nothing catches. *)
Inductive Fault : Type :=
| EmptyQueueAccess      (* front() or pop() on an empty std::queue *)
| UnlockedAccess       (* a queue touched while its mutex is not held *)
| Relock                (* a std::mutex locked by the thread that owns it *)
| SpuriousCompletion    (* a completion for an operation that is not in
                           flight, or one that breaks the contract of the
                           operation it completes *)
| Blocked               (* run_one waits for a completion that never comes *)
| Uncaught.             (* an exception leaves main: std::terminate is
                           called and the process aborts *)

Inductive Outcome (A : Type) : Type :=
| Ok (a : A)
| Fail (f : Fault).
Arguments Ok {A} a.
Arguments Fail {A} f.

(** A computation over a state [St]: it either fails or returns a value
    and the next state. *)
Definition M (St A : Type) : Type := St -> Outcome (A * St).

Definition ret {St A} (a : A) : M St A := fun s => Ok (a, s).

Definition bind {St A B} (m : M St A) (k : A -> M St B) : M St B :=
  fun s => match m s with
           | Ok (a, s') => k a s'
           | Fail f => Fail f
           end.

Definition fail {St A} (f : Fault) : M St A := fun _ => Fail f.
Definition get {St} : M St St := fun s => Ok (s, s).
Definition gets {St A} (proj : St -> A) : M St A := fun s => Ok (proj s, s).
Definition modify {St} (f : St -> St) : M St unit := fun s => Ok (tt, f s).

(** [zoom] runs a computation on a component of a larger state. *)
Definition zoom {Big Small A} (proj : Big -> Small) (inj : Small -> Big -> Big)
    (m : M Small A) : M Big A :=
  fun b => match m (proj b) with
           | Ok (a, s') => Ok (a, inj s' b)
           | Fail f => Fail f
           end.

Declare Scope effect_scope.
Delimit Scope effect_scope with eff.
Notation "x <- m ;; k" := (bind m (fun x => k))
  (at level 100, m at next level, right associativity) : effect_scope.
Notation "m ;; k" := (bind m (fun _ => k))
  (at level 100, right associativity) : effect_scope.

(** [asio::error_code]: zero is success, so [!p_Error] is [is_success]. *)
Definition error_code : Type := Z.
Definition is_success (e : error_code) : bool := e =? 0.

(** [asio::ip::tcp::socket]: an identity and whether it is open. *)
Record socket : Type := mkSocket {
  native_handle : nat;
  is_open : bool
}.

Definition UINT64_MODULUS : Z := 2 ^ 64.

End Effects.

(* ===================================================================== *)
(** * class Session *)
(* ===================================================================== *)

Module SessionModel.
Import Effects.
Local Open Scope effect_scope.

(** The data members, in declaration order, followed by two counters that
    are not in the class: they record the effects the class has on the I/O
    layer, so that "a read is in flight" and "the socket was closed once"
    can be stated.  [m_ReadBuffer] is the byte range the
    [asio::mutable_buffer] designates; its length is [m_ReadBuffer.size()]. *)
Record Session : Type := mkSession {
  m_Socket : socket;
  m_ReadBuffer : list ascii;
  m_MasterExit : bool;
  m_ReadWait : bool;
  m_QueueMutex : bool;
  m_Messages : list string;
  reads_in_flight : nat;      (* async_read calls not yet completed *)
  socket_closes : nat         (* calls of m_Socket.close() *)
}.

Definition set_m_Socket (v : socket) (s : Session) : Session :=
  mkSession v (m_ReadBuffer s) (m_MasterExit s) (m_ReadWait s)
            (m_QueueMutex s) (m_Messages s) (reads_in_flight s) (socket_closes s).
Definition set_m_ReadBuffer (v : list ascii) (s : Session) : Session :=
  mkSession (m_Socket s) v (m_MasterExit s) (m_ReadWait s)
            (m_QueueMutex s) (m_Messages s) (reads_in_flight s) (socket_closes s).
Definition set_m_MasterExit (v : bool) (s : Session) : Session :=
  mkSession (m_Socket s) (m_ReadBuffer s) v (m_ReadWait s)
            (m_QueueMutex s) (m_Messages s) (reads_in_flight s) (socket_closes s).
Definition set_m_ReadWait (v : bool) (s : Session) : Session :=
  mkSession (m_Socket s) (m_ReadBuffer s) (m_MasterExit s) v
            (m_QueueMutex s) (m_Messages s) (reads_in_flight s) (socket_closes s).
Definition set_m_QueueMutex (v : bool) (s : Session) : Session :=
  mkSession (m_Socket s) (m_ReadBuffer s) (m_MasterExit s) (m_ReadWait s)
            v (m_Messages s) (reads_in_flight s) (socket_closes s).
Definition set_m_Messages (v : list string) (s : Session) : Session :=
  mkSession (m_Socket s) (m_ReadBuffer s) (m_MasterExit s) (m_ReadWait s)
            (m_QueueMutex s) v (reads_in_flight s) (socket_closes s).
Definition set_reads_in_flight (v : nat) (s : Session) : Session :=
  mkSession (m_Socket s) (m_ReadBuffer s) (m_MasterExit s) (m_ReadWait s)
            (m_QueueMutex s) (m_Messages s) v (socket_closes s).
Definition set_socket_closes (v : nat) (s : Session) : Session :=
  mkSession (m_Socket s) (m_ReadBuffer s) (m_MasterExit s) (m_ReadWait s)
            (m_QueueMutex s) (m_Messages s) (reads_in_flight s) v.

(** *** Primitives of the libraries the class calls *)

(** [std::scoped_lock] on [m_QueueMutex]: construction and destruction. *)
Definition lock : M Session unit :=
  held <- gets m_QueueMutex;;
  if held then fail Relock else modify (set_m_QueueMutex true).

Definition unlock : M Session unit := modify (set_m_QueueMutex false).

(** [m_Messages.push]; the queue may only be touched under its mutex. *)
Definition push_message (l_Copy : string) : M Session unit :=
  held <- gets m_QueueMutex;;
  if held
  then modify (fun s => set_m_Messages (m_Messages s ++ [l_Copy]) s)
  else fail UnlockedAccess.

(** [asio::async_read(m_Socket, m_ReadBuffer, handler)] hands one read to
    the I/O layer. *)
Definition async_read : M Session unit :=
  modify (fun s => set_reads_in_flight (S (reads_in_flight s)) s).

(** [m_Socket.close()]. *)
Definition socket_close : M Session unit :=
  modify (fun s =>
    set_socket_closes (S (socket_closes s))
      (set_m_Socket (mkSocket (native_handle (m_Socket s)) false) s)).

(** *** Member functions *)

Definition StartRead : M Session unit :=
  s <- get;;
  if is_open (m_Socket s) && negb (m_ReadWait s)
  then
    modify (set_m_ReadWait true);;
    async_read
  else ret tt.

(** The lambda passed to [asio::async_read].  The success branch tests
    the size of the buffer, not [p_BytesRead], and copies the whole
    buffer. *)
Definition ReadHandler (p_Error : error_code) (p_BytesRead : nat) : M Session unit :=
  modify (set_m_ReadWait false);;
  (if is_success p_Error
   then
     size <- gets (fun s => length (m_ReadBuffer s));;
     if (0 <? size)%nat
     then
       lock;;
       l_Copy <- gets (fun s => string_of_list_ascii (m_ReadBuffer s));;
       push_message l_Copy;;
       unlock
     else ret tt                                 (* Empty Message Received *)
   else ret tt);;
  exiting <- gets m_MasterExit;;
  if negb exiting then StartRead else ret tt.

Definition Close : M Session unit :=
  opened <- gets (fun s => is_open (m_Socket s));;
  if opened then socket_close else ret tt.

(** [Session(asio::ip::tcp::socket&)]: the socket is moved in, every other
    member takes its default (the buffer designates no memory), and the
    body calls [StartRead]. *)
Definition Session_new (p_Socket : socket) : Outcome (unit * Session) :=
  StartRead
    {| m_Socket := p_Socket; m_ReadBuffer := []; m_MasterExit := false;
       m_ReadWait := false; m_QueueMutex := false; m_Messages := [];
       reads_in_flight := 0; socket_closes := 0 |}.

(** [~Session]. *)
Definition Session_delete : M Session unit :=
  modify (set_m_MasterExit true);;
  Close.

Definition InReadWait : M Session bool := gets m_ReadWait.

(** *** Completion of a read, as the I/O layer performs it

    A completion carries the error code and the bytes the transport
    stored at the start of the buffer; [p_BytesRead] is their number.
    [asio::async_read] completes when the buffer is full or an error
    occurred, hence a success transfers exactly [size()] bytes and a
    failure at most that many.  The I/O layer retires the operation,
    stores the bytes and calls the handler. *)
Record ReadCompletion : Type := mkReadCompletion {
  rc_error : error_code;
  rc_data : list ascii
}.

Definition rc_bytes (c : ReadCompletion) : nat := length (rc_data c).

Definition read_contract (buffer : list ascii) (c : ReadCompletion) : bool :=
  if is_success (rc_error c)
  then (rc_bytes c =? length buffer)%nat
  else (rc_bytes c <=? length buffer)%nat.

Definition store_bytes (data buffer : list ascii) : list ascii :=
  data ++ drop (length data) buffer.

Definition complete_read (c : ReadCompletion) : M Session unit :=
  s <- get;;
  match reads_in_flight s with
  | O => fail SpuriousCompletion
  | S n =>
      if read_contract (m_ReadBuffer s) c
      then
        modify (set_reads_in_flight n);;
        modify (fun s => set_m_ReadBuffer (store_bytes (rc_data c) (m_ReadBuffer s)) s);;
        ReadHandler (rc_error c) (rc_bytes c)
      else fail SpuriousCompletion
  end.

(** What can happen to a session from outside: the owner calls a public
    member function, or the I/O layer completes the read in flight. *)
Inductive SessionEvent : Type :=
| CallStartRead
| CallClose
| Completes (c : ReadCompletion).

Definition session_step (e : SessionEvent) : M Session unit :=
  match e with
  | CallStartRead => StartRead
  | CallClose => Close
  | Completes c => complete_read c
  end.

Fixpoint session_run (es : list SessionEvent) : M Session unit :=
  match es with
  | [] => ret tt
  | e :: rest => session_step e;; session_run rest
  end.

End SessionModel.

(* ===================================================================== *)
(** * class Server *)
(* ===================================================================== *)

Module ServerModel.
Import Effects.
Local Open Scope effect_scope.

(** [asio::ip::tcp::endpoint] and [asio::ip::tcp::acceptor]. *)
Record endpoint : Type := mkEndpoint {
  ep_address : string;
  ep_port : Z
}.

Record acceptor : Type := mkAcceptor {
  local_endpoint : endpoint;
  acceptor_is_open : bool
}.

(** [ApplicationConfig::GetServerEndPoint]: any IPv4 address, [m_Port]. *)
Definition GetServerEndPoint (p_Config : Parsing.ApplicationConfig) : endpoint :=
  mkEndpoint "0.0.0.0" (Parsing.m_Port p_Config).

(** The data members, in declaration order, and the number of accepts
    handed to the I/O layer and not yet completed. *)
Record Server : Type := mkServer {
  m_ConnectionsCount : Z;
  m_Acceptor : acceptor;
  m_QueueMutex : bool;
  m_ConnectedSockets : list socket;
  m_MasterExit : bool;
  accepts_in_flight : nat
}.

Definition set_m_ConnectionsCount (v : Z) (s : Server) : Server :=
  mkServer v (m_Acceptor s) (m_QueueMutex s) (m_ConnectedSockets s)
           (m_MasterExit s) (accepts_in_flight s).
Definition set_m_Acceptor (v : acceptor) (s : Server) : Server :=
  mkServer (m_ConnectionsCount s) v (m_QueueMutex s) (m_ConnectedSockets s)
           (m_MasterExit s) (accepts_in_flight s).
Definition set_m_QueueMutex (v : bool) (s : Server) : Server :=
  mkServer (m_ConnectionsCount s) (m_Acceptor s) v (m_ConnectedSockets s)
           (m_MasterExit s) (accepts_in_flight s).
Definition set_m_ConnectedSockets (v : list socket) (s : Server) : Server :=
  mkServer (m_ConnectionsCount s) (m_Acceptor s) (m_QueueMutex s) v
           (m_MasterExit s) (accepts_in_flight s).
Definition set_m_MasterExit (v : bool) (s : Server) : Server :=
  mkServer (m_ConnectionsCount s) (m_Acceptor s) (m_QueueMutex s)
           (m_ConnectedSockets s) v (accepts_in_flight s).
Definition set_accepts_in_flight (v : nat) (s : Server) : Server :=
  mkServer (m_ConnectionsCount s) (m_Acceptor s) (m_QueueMutex s)
           (m_ConnectedSockets s) (m_MasterExit s) v.

(** *** Primitives of the libraries the class calls *)

Definition lock : M Server unit :=
  held <- gets m_QueueMutex;;
  if held then fail Relock else modify (set_m_QueueMutex true).

Definition unlock : M Server unit := modify (set_m_QueueMutex false).

Definition under_lock {A} (m : M Server A) : M Server A :=
  held <- gets m_QueueMutex;;
  if held then m else fail UnlockedAccess.

(** [std::queue] operations on [m_ConnectedSockets]. *)
Definition queue_push (x : socket) : M Server unit :=
  under_lock (modify (fun s => set_m_ConnectedSockets (m_ConnectedSockets s ++ [x]) s)).

Definition queue_empty : M Server bool :=
  under_lock (gets (fun s => match m_ConnectedSockets s with [] => true | _ => false end)).

Definition queue_front : M Server socket :=
  under_lock (q <- gets m_ConnectedSockets;;
           match q with
           | [] => fail EmptyQueueAccess
           | x :: _ => ret x
           end).

Definition queue_pop : M Server unit :=
  under_lock (q <- gets m_ConnectedSockets;;
           match q with
           | [] => fail EmptyQueueAccess
           | _ :: rest => modify (set_m_ConnectedSockets rest)
           end).

(** [m_Acceptor.async_accept(handler)]. *)
Definition async_accept : M Server unit :=
  modify (fun s => set_accepts_in_flight (S (accepts_in_flight s)) s).

(** *** Member functions *)

Definition StartAccept : M Server unit :=
  async_accept.                                   (* after Log("Server Waiting...") *)

(** The lambda passed to [async_accept]. *)
Definition AcceptHandler (p_Error : error_code) (p_IncomingSocket : socket) : M Server unit :=
  modify (fun s => set_m_ConnectionsCount ((m_ConnectionsCount s + 1) `mod` UINT64_MODULUS) s);;
  (if is_success p_Error
   then
     lock;;
     queue_push p_IncomingSocket;;
     unlock
   else ret tt);;                                 (* Server Error... *)
  exiting <- gets m_MasterExit;;
  if negb exiting then StartAccept else ret tt.

(** [asio::ip::tcp::acceptor(p_Context, endpoint)] opens the acceptor,
    binds it to the endpoint and listens.  When one of the three fails
    the constructor throws [asio::system_error]; [p_Listen] is the error
    code of the attempt, which the environment decides. *)
Definition acceptor_new (ep : endpoint) (p_Listen : error_code) : Outcome acceptor :=
  if is_success p_Listen then Ok (mkAcceptor ep true) else Fail Uncaught.

(** The constructor [Server(p_Context, p_Config)]: the member
    initialiser builds the acceptor, the body calls [StartAccept].
    Nothing between here and [main] catches the exception. *)
Definition Server_new (p_Config : Parsing.ApplicationConfig) (p_Listen : error_code)
    : Outcome (unit * Server) :=
  match acceptor_new (GetServerEndPoint p_Config) p_Listen with
  | Ok l_Acceptor =>
      StartAccept
        {| m_ConnectionsCount := 0;
           m_Acceptor := l_Acceptor;
           m_QueueMutex := false; m_ConnectedSockets := [];
           m_MasterExit := false; accepts_in_flight := 0 |}
  | Fail f => Fail f
  end.

(** [~Server]. *)
Definition Server_delete : M Server unit :=
  modify (set_m_MasterExit true);;
  modify (fun s => set_m_Acceptor (mkAcceptor (local_endpoint (m_Acceptor s)) false) s).

Definition ConnectionWaiting : M Server bool :=
  lock;;
  empty <- queue_empty;;
  unlock;;
  ret (negb empty).

(** The returned [std::optional] is filled on every path that returns. *)
Definition GetNextConnection : M Server (option socket) :=
  lock;;
  front <- queue_front;;
  queue_pop;;
  unlock;;
  ret (Some front).

(** *** Completion of an accept, as the I/O layer performs it *)
Definition complete_accept (p_Error : error_code) (p_IncomingSocket : socket) : M Server unit :=
  s <- get;;
  match accepts_in_flight s with
  | O => fail SpuriousCompletion
  | S n =>
      modify (set_accepts_in_flight n);;
      AcceptHandler p_Error p_IncomingSocket
  end.

(** What can happen to the acceptor: an accept completes, or the driver
    claims the next connection. *)
Inductive ServerEvent : Type :=
| Accepted (p_Error : error_code) (p_IncomingSocket : socket)
| Claim.

Definition server_step (e : ServerEvent) : M Server unit :=
  match e with
  | Accepted err sock => complete_accept err sock
  | Claim => GetNextConnection;; ret tt
  end.

Fixpoint server_run (es : list ServerEvent) : M Server unit :=
  match es with
  | [] => ret tt
  | e :: rest => server_step e;; server_run rest
  end.

End ServerModel.

(* ===================================================================== *)
(** * RunServer, RunClient and main *)
(* ===================================================================== *)

Module Driver.
Import Effects.
Local Open Scope effect_scope.

(** ** The event loop

    The [asio::io_context] holds the operations in flight.  What it will
    complete, and in which order, is the environment's choice: a run is
    driven by a script of completions, and [run_one] performs the next
    one.  A read completion names its session by its position in
    [l_Sessions] (sessions are appended and never removed before the
    loop ends, so positions are stable). *)
Inductive Completion : Type :=
| AcceptDone (p_Error : error_code) (p_IncomingSocket : socket)
| ReadDone (session : nat) (c : SessionModel.ReadCompletion).

(** The locals of [RunServer]. *)
Record RunServerLocals : Type := mkRunServerLocals {
  l_Server : ServerModel.Server;
  l_Sessions : list SessionModel.Session;
  l_Ops : Z
}.

Definition set_l_Server (v : ServerModel.Server) (st : RunServerLocals) : RunServerLocals :=
  mkRunServerLocals v (l_Sessions st) (l_Ops st).
Definition set_l_Sessions (v : list SessionModel.Session) (st : RunServerLocals) : RunServerLocals :=
  mkRunServerLocals (l_Server st) v (l_Ops st).
Definition set_l_Ops (v : Z) (st : RunServerLocals) : RunServerLocals :=
  mkRunServerLocals (l_Server st) (l_Sessions st) v.

Definition on_server {A} (m : M ServerModel.Server A) : M RunServerLocals A :=
  zoom l_Server set_l_Server m.

(** Runs [m] on the session at position [i]. *)
Definition on_session {A} (i : nat) (m : M SessionModel.Session A) : M RunServerLocals A :=
  sessions <- gets l_Sessions;;
  match sessions !! i with
  | None => fail SpuriousCompletion
  | Some s =>
      match m s with
      | Ok (a, s') => modify (set_l_Sessions (<[i := s']> sessions));; ret a
      | Fail f => fail f
      end
  end.

(** [l_IOContext.run_one()] when the next completion is [e]: its handler
    runs and the call returns 1, the number of handlers executed. *)
Definition run_one (e : Completion) : M RunServerLocals Z :=
  match e with
  | AcceptDone p_Error p_IncomingSocket =>
      on_server (ServerModel.complete_accept p_Error p_IncomingSocket);;
      ret 1
  | ReadDone i c =>
      on_session i (SessionModel.complete_read c);;
      ret 1
  end.

(** [new Session(l_Connection.value())] followed by [push_back]. *)
Definition new_session (p_Socket : socket) : M RunServerLocals unit :=
  match SessionModel.Session_new p_Socket with
  | Ok (_, l_Session) => modify (fun st => set_l_Sessions (l_Sessions st ++ [l_Session]) st)
  | Fail f => fail f
  end.

(** One pass through the body of the [do ... while] loop, when the
    completion [run_one] performs is [e]. *)
Definition loop_body (e : Completion) : M RunServerLocals unit :=
  n <- run_one e;;
  modify (fun st => set_l_Ops ((l_Ops st + n) `mod` UINT64_MODULUS) st);;
  waiting <- on_server ServerModel.ConnectionWaiting;;
  if waiting
  then
    l_Connection <- on_server ServerModel.GetNextConnection;;
    match l_Connection with
    | Some p_Socket => new_session p_Socket
    | None => ret tt
    end
  else ret tt.

(** The [do ... while (l_Ops < 100)] loop.  With no completion left
    [run_one] never returns.  The result is the part of the script the
    loop did not consume. *)
Fixpoint server_loop (script : list Completion) : M RunServerLocals (list Completion) :=
  match script with
  | [] => fail Blocked
  | e :: rest =>
      loop_body e;;
      ops <- gets l_Ops;;
      if ops <? 100 then server_loop rest else ret rest
  end.

(** [for (auto& session : l_Sessions) delete session;]: the state each
    session is left in by its destructor. *)
Fixpoint delete_sessions (sessions : list SessionModel.Session)
    : Outcome (list SessionModel.Session) :=
  match sessions with
  | [] => Ok []
  | s :: rest =>
      match SessionModel.Session_delete s with
      | Ok (_, s') =>
          match delete_sessions rest with
          | Ok rest' => Ok (s' :: rest')
          | Fail f => Fail f
          end
      | Fail f => Fail f
      end
  end.

(** What a finished [RunServer] leaves behind. *)
Record RunReport : Type := mkRunReport {
  operations : Z;                                  (* l_Ops at loop exit *)
  deleted : list SessionModel.Session;             (* after each destructor *)
  remaining_sessions : list SessionModel.Session;  (* l_Sessions after clear() *)
  server_at_exit : ServerModel.Server;             (* after ~Server *)
  unconsumed : list Completion
}.

Definition RunServer (p_Config : option Parsing.ApplicationConfig)
    (p_Listen : error_code) (script : list Completion)
    : Outcome (option RunReport) :=
  match p_Config with
  | Some config =>
      match ServerModel.Server_new config p_Listen with
      | Ok (_, server) =>
          match server_loop script (mkRunServerLocals server [] 0) with
          | Ok (rest, st) =>
              match delete_sessions (l_Sessions st) with
              | Ok gone =>
                  match ServerModel.Server_delete (l_Server st) with
                  | Ok (_, server') =>
                      Ok (Some (mkRunReport (l_Ops st) gone [] server' rest))
                  | Fail f => Fail f
                  end
              | Fail f => Fail f
              end
          | Fail f => Fail f
          end
      | Fail f => Fail f
      end
  | None => Ok None                                (* Missing Config *)
  end.

Definition RunClient (p_Config : option Parsing.ApplicationConfig) : unit := tt.

(** ** [main] *)

(** [std::tolower] in the "C" locale. *)
Definition tolower (c : ascii) : ascii :=
  let n := nat_of_ascii c in
  if ((65 <=? n) && (n <=? 90))%nat then ascii_of_nat (n + 32) else c.

Fixpoint StringToLower (s : string) : string :=
  match s with
  | EmptyString => EmptyString
  | String c rest => String (tolower c) (StringToLower rest)
  end.

(** [main] has no [return]: when control reaches its end the exit code
    is 0.  The result pairs that code with what [RunServer] left.  The
    environment of a run is the outcome [p_Listen] of building the
    acceptor and the script of completions. *)
Definition main (p_argv : list string) (p_Listen : error_code)
    (script : list Completion) : Outcome (Z * option RunReport) :=
  let l_Params := map StringToLower p_argv in
  match Parsing.Create l_Params with
  | Some config =>
      match Parsing.m_Mode config with
      | Parsing.Server =>
          match RunServer (Some config) p_Listen script with
          | Ok report => Ok (0, report)
          | Fail f => Fail f
          end
      | Parsing.Client => let _ := RunClient (Some config) in Ok (0, None)
      | Parsing.Unknown => Ok (0, None)
      end
  | None => Ok (0, None)                           (* Usage() *)
  end.

End Driver.


(* ===================================================================== *)
(** * Vocabulary of the statements *)
(* ===================================================================== *)

(** Definitions used to state and to prove the properties.  Some read
    the words of the specification (the first role token, the payloads
    delivered, a balanced sequence of accepts and claims, a consistent
    script); the others are closed forms of the member functions, which
    the lemmas below prove equal to the code. *)
Module Reading.
Import Parsing Effects.

(** ** Argument lists *)

(** Every token paired with its successor. *)
Fixpoint adjacent (args : list string) : list (string * string) :=
  match args with
  | [] => []
  | a :: rest =>
      match rest with
      | [] => []
      | b :: _ => (a, b) :: adjacent rest
      end
  end.

Definition role_of (token : string) : option Mode :=
  if String.eqb token c_ClientString then Some Client
  else if String.eqb token c_ServerString then Some Server
  else None.

Definition parsed_int (token : string) : option Z :=
  let '(ok, v) := TryParse_int token 0 in
  if ok then Some v else None.

Definition role_at (p : string * string) : option Mode := role_of (fst p).

Definition address_at (p : string * string) : option string :=
  if String.eqb (fst p) c_AddressString then Some (snd p) else None.

Definition port_at (p : string * string) : option Z :=
  if String.eqb (fst p) c_PortString then parsed_int (snd p) else None.

(** The first answer [f] gives along the list. *)
Definition first_of {A B} (f : A -> option B) (l : list A) : option B :=
  head (omap f l).

(** The role of the first role token that has a successor; the successor
    of the first [address] token that has one; the value of the first
    [port] token whose successor parses as an [int]. *)
Definition first_role (args : list string) : option Mode :=
  first_of role_at (adjacent args).
Definition first_address (args : list string) : option string :=
  first_of address_at (adjacent args).
Definition first_port (args : list string) : option Z :=
  first_of port_at (adjacent args).

(** What the loop leaves in a pair (found flag, value) when the first
    answer along the remaining tokens is [answer]. *)
Definition settle {A} (found : bool) (current : A) (answer : option A) : bool * A :=
  if found then (true, current)
  else match answer with
       | Some x => (true, x)
       | None => (false, current)
       end.


(** ** Read completions *)

(** A successful read that transferred at least one byte. *)
Definition carries_payload (c : SessionModel.ReadCompletion) : bool :=
  is_success (SessionModel.rc_error c) && (0 <? SessionModel.rc_bytes c)%nat.

(** The payloads of the non-empty successful reads, in arrival order. *)
Fixpoint delivered (cs : list SessionModel.ReadCompletion) : list string :=
  match cs with
  | [] => []
  | c :: rest =>
      if carries_payload c
      then string_of_list_ascii (SessionModel.rc_data c) :: delivered rest
      else delivered rest
  end.

(** ** Closed forms of the member functions *)

Section SessionForms.
Import SessionModel.

(** The state a read completion leaves, for a session whose mutex is
    free and which has a read in flight. *)
Definition after_read (c : ReadCompletion) (s : Session) : Session :=
  let rearm := negb (m_MasterExit s) && is_open (m_Socket s) in
  {| m_Socket := m_Socket s;
     m_ReadBuffer := store_bytes (rc_data c) (m_ReadBuffer s);
     m_MasterExit := m_MasterExit s;
     m_ReadWait := rearm;
     m_QueueMutex := false;
     m_Messages :=
       if carries_payload c
       then m_Messages s ++ [string_of_list_ascii (rc_data c)]
       else m_Messages s;
     reads_in_flight := if rearm then reads_in_flight s else pred (reads_in_flight s);
     socket_closes := socket_closes s |}.

(** The state [Close] leaves. *)
Definition after_close (s : Session) : Session :=
  if is_open (m_Socket s)
  then set_socket_closes (S (socket_closes s))
         (set_m_Socket (mkSocket (native_handle (m_Socket s)) false) s)
  else s.

(** The relation between the flag and the reads in flight, for a session
    whose mutex is free. *)
Definition read_invariant (s : Session) : Prop :=
  m_QueueMutex s = false /\
  reads_in_flight s = (if m_ReadWait s then 1 else 0)%nat.

End SessionForms.

Section ServerForms.
Import ServerModel.

(** The state the accept handler leaves. *)
Definition after_accept (p_Error : error_code) (p_IncomingSocket : socket)
    (s : Server) : Server :=
  {| m_ConnectionsCount := (m_ConnectionsCount s + 1) `mod` UINT64_MODULUS;
     m_Acceptor := m_Acceptor s;
     m_QueueMutex := false;
     m_ConnectedSockets :=
       if is_success p_Error
       then m_ConnectedSockets s ++ [p_IncomingSocket]
       else m_ConnectedSockets s;
     m_MasterExit := m_MasterExit s;
     accepts_in_flight :=
       if m_MasterExit s then accepts_in_flight s else S (accepts_in_flight s) |}.

(** An acceptor between two operations, while it is not shutting down. *)
Definition accepting (s : Server) : Prop :=
  m_QueueMutex s = false /\ m_MasterExit s = false /\ (0 < accepts_in_flight s)%nat.

End ServerForms.

Section DriverForms.
Import SessionModel Driver.

(** A session as its constructor leaves it. *)
Definition fresh_session (p_Socket : socket) : Session :=
  mkSession p_Socket [] false (is_open p_Socket) false []
            (if is_open p_Socket then 1 else 0) 0.

(** A session built by the constructor, after its destructor. *)
Definition deleted_session (p_Socket : socket) : Session :=
  mkSession (mkSocket (native_handle p_Socket) false) [] true (is_open p_Socket)
            false [] (if is_open p_Socket then 1 else 0)
            (if is_open p_Socket then 1 else 0).

(** The locals of [RunServer] between two passes of the loop, when the
    sessions created so far hold the sockets [socks]. *)
Definition running (socks : list socket) (st : RunServerLocals) : Prop :=
  accepting (l_Server st) /\
  ServerModel.m_ConnectedSockets (l_Server st) = [] /\
  l_Sessions st = map fresh_session socks.

End DriverForms.

(** ** Accepts and claims *)

Fixpoint pushes (es : list ServerModel.ServerEvent) : nat :=
  match es with
  | [] => 0
  | ServerModel.Accepted err _ :: rest =>
      ((if is_success err then 1 else 0) + pushes rest)%nat
  | ServerModel.Claim :: rest => pushes rest
  end.

Fixpoint claims (es : list ServerModel.ServerEvent) : nat :=
  match es with
  | [] => 0
  | ServerModel.Accepted _ _ :: rest => claims rest
  | ServerModel.Claim :: rest => S (claims rest)
  end.

(** No prefix claims more sockets than were pushed. *)
Definition balanced (es : list ServerModel.ServerEvent) : Prop :=
  forall n, (claims (take n es) <= pushes (take n es))%nat.

(** ** Scripts of completions

    A script is consistent when each completion belongs to an operation
    that is in flight.  An accept always is.  A read on session [i] is
    when that session exists and its socket is open, and the completion
    respects the read contract for the (empty) buffer of a session built
    by the constructor.  [opens] lists, for the sessions created so far,
    whether their socket is open. *)
Fixpoint script_ok (opens : list bool) (script : list Driver.Completion) : bool :=
  match script with
  | [] => true
  | Driver.AcceptDone err sock :: rest =>
      script_ok (if is_success err then opens ++ [is_open sock] else opens) rest
  | Driver.ReadDone i c :: rest =>
      match opens !! i with
      | Some true => SessionModel.read_contract [] c && script_ok opens rest
      | _ => false
      end
  end.

(** The sockets of the successful accepts of a script, in order. *)
Fixpoint accepted (script : list Driver.Completion) : list socket :=
  match script with
  | [] => []
  | Driver.AcceptDone err sock :: rest =>
      if is_success err then sock :: accepted rest else accepted rest
  | Driver.ReadDone _ _ :: rest => accepted rest
  end.


(** ** Further vocabulary *)

(** A text that is empty or starts with something else than a digit. *)
Definition no_leading_digit (t : string) : bool :=
  match t with
  | EmptyString => true
  | String c _ => match digit_value c with Some _ => false | None => true end
  end.

(** An upper case letter of the "C" locale. *)
Definition is_upper (c : ascii) : bool :=
  let n := nat_of_ascii c in ((65 <=? n) && (n <=? 90))%nat.

Fixpoint has_upper (s : string) : bool :=
  match s with
  | EmptyString => false
  | String c rest => is_upper c || has_upper rest
  end.

(** The number of read completions in a sequence of session events. *)
Fixpoint read_completions (es : list SessionModel.SessionEvent) : nat :=
  match es with
  | [] => 0
  | SessionModel.Completes _ :: rest => S (read_completions rest)
  | _ :: rest => read_completions rest
  end.

(** The sockets the successful accepts of a sequence pushed, in order,
    and the number of accept completions, failed ones included. *)
Fixpoint pushed_sockets (es : list ServerModel.ServerEvent) : list socket :=
  match es with
  | [] => []
  | ServerModel.Accepted err sock :: rest =>
      if is_success err then sock :: pushed_sockets rest else pushed_sockets rest
  | ServerModel.Claim :: rest => pushed_sockets rest
  end.

Fixpoint completions (es : list ServerModel.ServerEvent) : nat :=
  match es with
  | [] => 0
  | ServerModel.Accepted _ _ :: rest => S (completions rest)
  | ServerModel.Claim :: rest => completions rest
  end.

End Reading.

Import Parsing Effects Reading.

(* ===================================================================== *)
(** * Properties of the command line parser *)
(* ===================================================================== *)

Section ParsingFacts.

Lemma first_of_cons {A B} (f : A -> option B) (a : A) (l : list A) :
  first_of f (a :: l) = match f a with Some b => Some b | None => first_of f l end.
Proof. unfold first_of. simpl. destruct (f a); reflexivity. Qed.

Lemma adjacent_cons2 (a b : string) (rest : list string) :
  adjacent (a :: b :: rest) = (a, b) :: adjacent (b :: rest).
Proof. reflexivity. Qed.

Ltac scan_cases a b st :=
  destruct st as [af addr pf port mf mode];
  unfold scan_token, scan_mode, scan_port, scan_address,
         role_at, role_of, address_at, port_at, parsed_int, settle;
  simpl;
  destruct (TryParse_int b 0) as [[|] v];
  destruct af, pf, mf;
  destruct (String.eqb a c_AddressString), (String.eqb a c_PortString),
           (String.eqb a c_ClientString), (String.eqb a c_ServerString);
  reflexivity.

Lemma role_at_scan (a b : string) (st : CreateLocals) :
  (l_ModeFound (scan_token a b st), l_Mode (scan_token a b st)) =
    settle (l_ModeFound st) (l_Mode st) (role_at (a, b)).
Proof. scan_cases a b st. Qed.

Lemma address_at_scan (a b : string) (st : CreateLocals) :
  (l_AddressFound (scan_token a b st), l_Address (scan_token a b st)) =
    settle (l_AddressFound st) (l_Address st) (address_at (a, b)).
Proof. scan_cases a b st. Qed.

Lemma port_at_scan (a b : string) (st : CreateLocals) :
  (l_PortFound (scan_token a b st), l_Port (scan_token a b st)) =
    settle (l_PortFound st) (l_Port st) (PortNumber_of_int <$> port_at (a, b)).
Proof. scan_cases a b st. Qed.

Lemma settle_settle {A} (found : bool) (current : A) (x y : option A) :
  settle (fst (settle found current x)) (snd (settle found current x)) y =
    settle found current (match x with Some v => Some v | None => y end).
Proof. unfold settle. destruct found, x; reflexivity. Qed.

(** The loop computes, for each of the three settings, the first answer
    along the adjacent pairs. *)
Lemma scan_parameters_spec (args : list string) (st : CreateLocals) :
  let st' := scan_parameters args st in
  (l_ModeFound st', l_Mode st') =
    settle (l_ModeFound st) (l_Mode st) (first_role args) /\
  (l_AddressFound st', l_Address st') =
    settle (l_AddressFound st) (l_Address st) (first_address args) /\
  (l_PortFound st', l_Port st') =
    settle (l_PortFound st) (l_Port st) (PortNumber_of_int <$> first_port args).
Proof.
  revert st. induction args as [|a rest IH]; intros st.
  - simpl. destruct st as [[] ? [] ? [] ?]; repeat split; reflexivity.
  - destruct rest as [|b rest'].
    + simpl. destruct st as [[] ? [] ? [] ?]; repeat split; reflexivity.
    + change (scan_parameters (a :: b :: rest') st)
        with (scan_parameters (b :: rest') (scan_token a b st)).
      cbv zeta in IH |- *.
      destruct (IH (scan_token a b st)) as (Hm & Ha & Hp).
      unfold first_role, first_address, first_port in *.
      rewrite adjacent_cons2, !first_of_cons.
      rewrite Hm, Ha, Hp.
      pose proof (role_at_scan a b st) as Em.
      pose proof (address_at_scan a b st) as Ea.
      pose proof (port_at_scan a b st) as Ep.
      repeat split.
      * replace (l_ModeFound (scan_token a b st)) with (fst (settle (l_ModeFound st) (l_Mode st) (role_at (a, b)))) by (rewrite <- Em; reflexivity).
        replace (l_Mode (scan_token a b st)) with (snd (settle (l_ModeFound st) (l_Mode st) (role_at (a, b)))) by (rewrite <- Em; reflexivity).
        apply settle_settle.
      * replace (l_AddressFound (scan_token a b st)) with (fst (settle (l_AddressFound st) (l_Address st) (address_at (a, b)))) by (rewrite <- Ea; reflexivity).
        replace (l_Address (scan_token a b st)) with (snd (settle (l_AddressFound st) (l_Address st) (address_at (a, b)))) by (rewrite <- Ea; reflexivity).
        apply settle_settle.
      * replace (l_PortFound (scan_token a b st)) with (fst (settle (l_PortFound st) (l_Port st) (PortNumber_of_int <$> port_at (a, b)))) by (rewrite <- Ep; reflexivity).
        replace (l_Port (scan_token a b st)) with (snd (settle (l_PortFound st) (l_Port st) (PortNumber_of_int <$> port_at (a, b)))) by (rewrite <- Ep; reflexivity).
        rewrite settle_settle. destruct (port_at (a, b)); reflexivity.
Qed.

(** [Create] in one equation: a configuration exists exactly when some
    role token has a successor, and each setting is the first one
    supplied, or its default. *)
Lemma Create_spec (args : list string) :
  Create args =
    match first_role args with
    | Some mode =>
        Some (mkApplicationConfig mode
                (default c_DefaultAddressString (first_address args))
                (default c_DefaultPortNumber (PortNumber_of_int <$> first_port args)))
    | None => None
    end.
Proof.
  destruct args as [|a rest]; [reflexivity|].
  unfold Create.
  destruct (scan_parameters_spec (a :: rest) CreateLocals_init) as (Hm & Ha & Hp).
  cbv zeta in *.
  set (st := scan_parameters (a :: rest) CreateLocals_init) in *.
  simpl in Hm, Ha, Hp.
  destruct (first_role (a :: rest)), (first_address (a :: rest)),
    (first_port (a :: rest)); simpl in *;
    injection Hm as -> ?; injection Ha as ? ?; injection Hp as ? ?;
    try congruence; subst; f_equal.
  all: try (repeat match goal with H : _ = _ |- _ => rewrite H end; reflexivity).
Qed.

(** Reading the adjacent pairs by position. *)
Lemma first_of_adjacent_at {B} (f : string * string -> option B)
    (args : list string) (i : nat) (a b : string) (y : B) :
  args !! i = Some a -> args !! S i = Some b -> f (a, b) = Some y ->
  (forall j a' b', (j < i)%nat -> args !! j = Some a' -> args !! S j = Some b' ->
                   f (a', b') = None) ->
  first_of f (adjacent args) = Some y.
Proof.
  revert i. induction args as [|x rest IH]; intros i Ha Hb Hf Hbefore.
  - discriminate.
  - destruct rest as [|x' rest']; [destruct i; discriminate|].
    rewrite adjacent_cons2, first_of_cons.
    destruct i as [|i'].
    + simpl in Ha, Hb. injection Ha as ->. injection Hb as ->.
      rewrite Hf. reflexivity.
    + rewrite (Hbefore 0%nat x x') by (reflexivity || lia).
      apply (IH i'); auto.
      intros j a' b' Hj Hja Hjb. apply (Hbefore (S j)); auto. lia.
Qed.

Lemma first_of_adjacent_some {B} (f : string * string -> option B)
    (args : list string) (i : nat) (a b : string) (y : B) :
  args !! i = Some a -> args !! S i = Some b -> f (a, b) = Some y ->
  is_Some (first_of f (adjacent args)).
Proof.
  revert i. induction args as [|x rest IH]; intros i Ha Hb Hf.
  - discriminate.
  - destruct rest as [|x' rest']; [destruct i; discriminate|].
    rewrite adjacent_cons2, first_of_cons.
    destruct (f (x, x')) eqn:Hx; [eauto|].
    destruct i as [|i'].
    + simpl in Ha, Hb. injection Ha as ->. injection Hb as ->. congruence.
    + apply (IH i'); auto.
Qed.

Lemma successor_exists (args : list string) (i : nat) :
  (S i < length args)%nat -> exists b, args !! S i = Some b.
Proof. intros H. apply lookup_lt_is_Some_2 in H. destruct H as [b Hb]. eauto. Qed.

Lemma port_at_unparsed (a b : string) :
  (a = c_PortString -> fst (TryParse_int b 0) = false) -> port_at (a, b) = None.
Proof.
  intros H. unfold port_at, parsed_int. simpl.
  destruct (String.eqb a c_PortString) eqn:E; [|reflexivity].
  apply String.eqb_eq in E. specialize (H E).
  destruct (TryParse_int b 0) as [ok v]. simpl in H. subst ok. reflexivity.
Qed.

Lemma port_at_parsed (b : string) (v : Z) :
  TryParse_int b 0 = (true, v) -> port_at (c_PortString, b) = Some v.
Proof. intros H. unfold port_at, parsed_int. simpl. rewrite H. reflexivity. Qed.

Lemma role_of_tokens (token : string) :
  token = c_ServerString \/ token = c_ClientString -> is_Some (role_of token).
Proof. intros [-> | ->]; vm_compute; eauto. Qed.

(** Where a role token has a successor the loop sees it.  For every
    argument list in which the first role token that has a successor is
    [token], [Create] returns a configuration with the role of [token],
    with the address that follows the first [address] token having a
    successor (or 127.0.0.1), and with the value, reduced to 16 bits, of
    the first [port] token whose successor parses as an int (or 7500).
    So server address 127.0.0.1 port 8000 gives (Server, 127.0.0.1,
    8000), and a client token followed by one unrelated token gives
    (Client, 127.0.0.1, 7500): both defaults are meant to apply. *)
Theorem Create_role_with_successor
    (args : list string) (i : nat) (token : string) (mode : Mode) :
  args !! i = Some token ->
  role_of token = Some mode ->
  (S i < length args)%nat ->
  (forall j t b, (j < i)%nat -> args !! j = Some t -> args !! S j = Some b ->
                 role_of t = None) ->
  Create args =
    Some (mkApplicationConfig mode
            (default "127.0.0.1"%string (first_address args))
            (default 7500 (PortNumber_of_int <$> first_port args)))
  /\ Create ["server"; "address"; "127.0.0.1"; "port"; "8000"]%string
       = Some (mkApplicationConfig Server "127.0.0.1" 8000)
  /\ Create ["client"; "verbose"]%string
       = Some (mkApplicationConfig Client "127.0.0.1" 7500).
Proof.
  intros Htok Hrole Hlen Hfirst.
  split; [|split; reflexivity].
  destruct (successor_exists args i Hlen) as [b Hb].
  rewrite Create_spec.
  assert (first_role args = Some mode) as ->; [|reflexivity].
  apply (first_of_adjacent_at role_at args i token b);
    [assumption | assumption | exact Hrole |].
  intros j a' b' Hj Hja Hjb. unfold role_at. simpl. eauto.
Qed.

Lemma Create_role_with_successor_witness :
  Create ["prog"; "port"; "x"; "client"; "port"; "81"; "server"; "address"; "h"]%string =
    Some (mkApplicationConfig Client "h" 81).
Proof.
  refine (proj1 (Create_role_with_successor
            ["prog"; "port"; "x"; "client"; "port"; "81"; "server"; "address"; "h"]%string
            3%nat "client"%string Client _ _ _ _)).
  - reflexivity.
  - reflexivity.
  - simpl. lia.
  - intros j t b Hj Ht Hb.
    destruct j as [|[|[|j]]]; simpl in Ht; try lia;
      injection Ht as <-; reflexivity.
Defined.

(** C1: the code misses a role token in last position.  The guard
    [l_next != end] protects the look-up of the value of an [address] or
    [port] token, but it also wraps the two role tests, which read no
    value.  On the list that holds the client token alone the loop body
    never runs, the mode is reported as missing although it was given,
    and no configuration is produced, where the claim expects (Client,
    127.0.0.1, 7500). *)
Lemma Create_lone_client :
  In "client"%string ["client"%string] /\
  Create ["client"%string] = None /\
  Create ["client"%string] <> Some (mkApplicationConfig Client "127.0.0.1" 7500).
Proof. split; [left; reflexivity|]. split; [reflexivity|]. discriminate. Qed.

(** C10, as the code has it.  When a role token comes before a [port]
    token whose successor parses as an int [v] outside 0..65535, and no
    earlier [port] token has a successor that parses, [Create] succeeds
    and the configured port is [v] reduced modulo 2^16: it lies in
    0..65535 and differs from [v]. *)
Theorem Create_port_truncated
    (args : list string) (i j : nat) (role s : string) (v : Z) :
  args !! i = Some role ->
  role = c_ServerString \/ role = c_ClientString ->
  (i < j)%nat ->
  args !! j = Some c_PortString ->
  args !! S j = Some s ->
  TryParse_int s 0 = (true, v) ->
  v < 0 \/ 65535 < v ->
  (forall k t, (k < j)%nat -> args !! k = Some c_PortString ->
               args !! S k = Some t -> fst (TryParse_int t 0) = false) ->
  exists config,
    Create args = Some config /\
    m_Port config = v `mod` 2 ^ 16 /\
    0 <= m_Port config <= 65535 /\
    m_Port config <> v.
Proof.
  intros Hrole Hkind Hij Hport Hs Hparse Hout Hearlier.
  assert (exists b, args !! S i = Some b) as [b Hb].
  { apply successor_exists. apply lookup_lt_Some in Hport. lia. }
  destruct (role_of_tokens role Hkind) as [mode Hmode].
  destruct (first_of_adjacent_some role_at args i role b mode Hrole Hb Hmode)
    as [mode' Hfirst].
  assert (first_port args = Some v) as Hv.
  { apply (first_of_adjacent_at port_at args j c_PortString s);
      [assumption | assumption | apply port_at_parsed; assumption |].
    intros k a' b' Hk Hka Hkb. apply port_at_unparsed. intros ->. eauto. }
  rewrite Create_spec. unfold first_role. rewrite Hfirst, Hv. simpl.
  eexists. split; [reflexivity|]. simpl. unfold PortNumber_of_int.
  change (2 ^ 16) with 65536.
  pose proof (Z.mod_pos_bound v 65536 ltac:(lia)).
  repeat split; lia.
Qed.

Lemma Create_port_truncated_witness :
  exists config,
    Create ["prog"; "port"; ""; "server"; "port"; "-1"]%string = Some config /\
    m_Port config = (-1) `mod` 2 ^ 16 /\
    0 <= m_Port config <= 65535 /\
    m_Port config <> -1.
Proof.
  refine (Create_port_truncated
            ["prog"; "port"; ""; "server"; "port"; "-1"]%string
            3%nat 4%nat "server"%string "-1"%string (-1) _ _ _ _ _ _ _ _).
  - reflexivity.
  - left; reflexivity.
  - lia.
  - reflexivity.
  - reflexivity.
  - reflexivity.
  - left; lia.
  - intros k t Hk Hkp Hkt.
    destruct k as [|[|[|[|k]]]]; simpl in Hkp; try lia; try discriminate.
    simpl in Hkt. injection Hkt as <-. reflexivity.
Defined.

(** C10 as stated fails when an earlier [port] token already supplied a
    port: the list holds a role token followed by a [port] token whose
    successor parses as 70000, yet the configured port is 80, not 70000
    reduced modulo 2^16. *)
Lemma Create_second_port_ignored :
  TryParse_int "70000" 0 = (true, 70000) /\
  65535 < 70000 /\
  exists config,
    Create ["port"; "80"; "server"; "port"; "70000"]%string = Some config /\
    m_Port config = 80 /\
    m_Port config <> 70000 `mod` 2 ^ 16.
Proof.
  split; [reflexivity|]. split; [lia|].
  eexists. split; [reflexivity|]. split; [reflexivity|].
  vm_compute. discriminate.
Qed.

End ParsingFacts.

(* ===================================================================== *)
(** * Properties of Session *)
(* ===================================================================== *)

Section SessionFacts.
Import SessionModel.

Lemma store_bytes_length (data buffer : list ascii) :
  (length data <= length buffer)%nat ->
  length (store_bytes data buffer) = length buffer.
Proof.
  intros H. unfold store_bytes. rewrite length_app, length_drop. lia.
Qed.

Lemma store_bytes_full (data buffer : list ascii) :
  length data = length buffer -> store_bytes data buffer = data.
Proof.
  intros H. unfold store_bytes. rewrite drop_ge by lia. apply app_nil_r.
Qed.

Lemma read_contract_bound (buffer : list ascii) (c : ReadCompletion) :
  read_contract buffer c = true -> (rc_bytes c <= length buffer)%nat.
Proof.
  unfold read_contract. destruct (is_success (rc_error c)); intros H.
  - apply Nat.eqb_eq in H. lia.
  - apply Nat.leb_le in H. exact H.
Qed.

Lemma read_contract_success (buffer : list ascii) (c : ReadCompletion) :
  read_contract buffer c = true -> is_success (rc_error c) = true ->
  rc_bytes c = length buffer.
Proof.
  unfold read_contract. intros H E. rewrite E in H. apply Nat.eqb_eq in H. exact H.
Qed.

Lemma read_contract_same_size (b1 b2 : list ascii) (c : ReadCompletion) :
  length b1 = length b2 -> read_contract b1 c = read_contract b2 c.
Proof. intros H. unfold read_contract. rewrite H. reflexivity. Qed.

(** [StartRead] in one equation. *)
Lemma StartRead_run (s : Session) :
  StartRead s =
    Ok (tt, if is_open (m_Socket s) && negb (m_ReadWait s)
            then set_reads_in_flight (S (reads_in_flight s)) (set_m_ReadWait true s)
            else s).
Proof.
  unfold StartRead, bind, get. simpl.
  destruct (is_open (m_Socket s) && negb (m_ReadWait s)); reflexivity.
Qed.

Ltac session_compute :=
  cbv [StartRead ReadHandler Close Session_delete socket_close async_read
       lock unlock push_message bind get gets modify ret fail
       set_m_Socket set_m_ReadBuffer set_m_MasterExit set_m_ReadWait
       set_m_QueueMutex set_m_Messages set_reads_in_flight set_socket_closes
       m_Socket m_ReadBuffer m_MasterExit m_ReadWait m_QueueMutex m_Messages
       reads_in_flight socket_closes is_open native_handle negb andb].

Lemma complete_read_run (c : ReadCompletion) (s : Session) :
  m_QueueMutex s = false ->
  (0 < reads_in_flight s)%nat ->
  read_contract (m_ReadBuffer s) c = true ->
  complete_read c s = Ok (tt, after_read c s).
Proof.
  intros Hmutex Hflight Hcontract.
  destruct s as [[h opened] buf me rw mu msgs fl cl]. simpl in *. subst mu.
  destruct fl as [|n]; [lia|].
  unfold complete_read, after_read, carries_payload, bind at 1, get. simpl.
  rewrite Hcontract.
  destruct (is_success (rc_error c)) eqn:Hok.
  - pose proof (read_contract_success _ _ Hcontract Hok) as Hlen.
    session_compute. rewrite Hok.
    rewrite store_bytes_full by exact Hlen.
    fold (rc_bytes c).
    destruct (0 <? rc_bytes c)%nat eqn:Hpos; destruct me, opened; reflexivity.
  - session_compute. rewrite Hok. destruct me, opened; reflexivity.
Qed.

(** The handler never reads [p_BytesRead]: it decides on the size of the
    buffer. *)
Lemma ReadHandler_byte_count (p_Error : error_code) (n m : nat) :
  ReadHandler p_Error n = ReadHandler p_Error m.
Proof. reflexivity. Qed.

(** A session built by the constructor has an empty buffer, so a read
    completes at once with no byte and nothing is queued. *)
Lemma Session_new_buffer (p_Socket : socket) (s : Session) :
  Session_new p_Socket = Ok (tt, s) -> m_ReadBuffer s = [] /\ m_Messages s = [].
Proof.
  unfold Session_new. rewrite StartRead_run. simpl. intros [= <-].
  destruct (is_open p_Socket); split; reflexivity.
Qed.

Lemma Close_run (s : Session) : Close s = Ok (tt, after_close s).
Proof.
  unfold Close, after_close, bind, gets. simpl.
  destruct (is_open (m_Socket s)); reflexivity.
Qed.

Lemma Session_delete_run (s : Session) :
  Session_delete s = Ok (tt, after_close (set_m_MasterExit true s)).
Proof. unfold Session_delete, bind, modify. simpl. apply Close_run. Qed.

Lemma app_one_differs {A} (l : list A) (x : A) : l ++ [x] <> l.
Proof.
  intros H. apply (f_equal (@length A)) in H. rewrite length_app in H. simpl in H. lia.
Qed.

Lemma carries_payload_iff (c : ReadCompletion) :
  carries_payload c = true <-> rc_error c = 0 /\ rc_bytes c <> 0%nat.
Proof.
  unfold carries_payload, is_success.
  rewrite andb_true_iff, Z.eqb_eq, Nat.ltb_lt. intuition lia.
Qed.

(** C2.  A read completion (for a session with a read in flight, its
    mutex free, the completion respecting the contract of async_read)
    changes the message queue exactly when it carries no error and its
    byte count is not zero.  Then one string, a copy of the buffer
    contents, is appended; a zero-byte success and a failure both leave
    the queue as it was. *)
Theorem read_completion_queue (s : Session) (c : ReadCompletion) :
  m_QueueMutex s = false ->
  (0 < reads_in_flight s)%nat ->
  read_contract (m_ReadBuffer s) c = true ->
  exists s',
    complete_read c s = Ok (tt, s') /\
    (m_Messages s' <> m_Messages s <-> rc_error c = 0 /\ rc_bytes c <> 0%nat) /\
    (rc_error c = 0 -> rc_bytes c <> 0%nat ->
       m_Messages s' = m_Messages s ++ [string_of_list_ascii (m_ReadBuffer s')] /\
       m_ReadBuffer s' = rc_data c) /\
    (rc_error c = 0 -> rc_bytes c = 0%nat -> m_Messages s' = m_Messages s) /\
    (rc_error c <> 0 -> m_Messages s' = m_Messages s).
Proof.
  intros Hmutex Hflight Hcontract.
  exists (after_read c s). split; [apply complete_read_run; assumption|].
  pose proof (carries_payload_iff c) as Hiff.
  unfold after_read; simpl.
  destruct (carries_payload c) eqn:Hp.
  - destruct (proj1 Hiff eq_refl) as [Herr Hbytes].
    assert (store_bytes (rc_data c) (m_ReadBuffer s) = rc_data c) as Hfull.
    { apply store_bytes_full, read_contract_success; [assumption|].
      unfold is_success. apply Z.eqb_eq. exact Herr. }
    rewrite Hfull.
    split; [split; [auto | intros _; apply app_one_differs]|].
    split; [auto|]. split; intros; congruence.
  - assert (~ (rc_error c = 0 /\ rc_bytes c <> 0%nat)) as Hno
      by (intros H; apply Hiff in H; discriminate).
    split; [split; [congruence | intros H; contradiction]|].
    split; [intros; exfalso; auto|]. split; reflexivity.
Qed.

Lemma read_completion_queue_witness :
  exists s',
    complete_read (mkReadCompletion 0 ["h"; "i"]%char)
      (mkSession (mkSocket 4 true) ["?"; "?"]%char false true false ["old"%string] 1 0)
      = Ok (tt, s') /\
    m_Messages s' = ["old"; "hi"]%string.
Proof.
  destruct (read_completion_queue
              (mkSession (mkSocket 4 true) ["?"; "?"]%char false true false ["old"%string] 1 0)
              (mkReadCompletion 0 ["h"; "i"]%char))
    as (s' & Hrun & _ & Hpush & _).
  - reflexivity.
  - simpl. lia.
  - reflexivity.
  - exists s'. split; [exact Hrun|].
    destruct Hpush as [Hq Hbuf]; [reflexivity | discriminate |].
    rewrite Hq, Hbuf. reflexivity.
Defined.

(** A run of read completions on a session that keeps re-arming. *)
Lemma session_run_completions (cs : list ReadCompletion) (s : Session) :
  m_QueueMutex s = false ->
  (0 < reads_in_flight s)%nat ->
  is_open (m_Socket s) = true ->
  m_MasterExit s = false ->
  Forall (fun c => read_contract (m_ReadBuffer s) c = true) cs ->
  exists s',
    session_run (map Completes cs) s = Ok (tt, s') /\
    m_Messages s' = m_Messages s ++ delivered cs.
Proof.
  revert s. induction cs as [|c rest IH]; intros s Hmutex Hflight Hopen Hexit Hall.
  - exists s. split; [reflexivity|]. simpl. rewrite app_nil_r. reflexivity.
  - inversion Hall as [|? ? Hc Hrest]; subst.
    pose proof (read_contract_bound _ _ Hc) as Hbound.
    destruct (IH (after_read c s)) as (s' & Hrun & Hq).
    + reflexivity.
    + unfold after_read; simpl. rewrite Hexit, Hopen. simpl. exact Hflight.
    + exact Hopen.
    + exact Hexit.
    + eapply Forall_impl; [exact Hrest|]. intros c' Hc'. simpl in Hc'.
      rewrite <- Hc'. apply read_contract_same_size. simpl.
      apply store_bytes_length. exact Hbound.
    + exists s'. split.
      * simpl. unfold bind. simpl. rewrite complete_read_run by assumption. exact Hrun.
      * rewrite Hq. simpl. destruct (carries_payload c); [|reflexivity].
        rewrite <- app_assoc. reflexivity.
Qed.

(** A completion that the session can receive leaves [after_read]. *)
Lemma complete_read_inv (c : ReadCompletion) (s s' : Session) :
  m_QueueMutex s = false ->
  complete_read c s = Ok (tt, s') ->
  s' = after_read c s.
Proof.
  intros Hmutex Hstep.
  destruct (reads_in_flight s) as [|n] eqn:Hflight.
  - unfold complete_read, bind, get in Hstep. simpl in Hstep.
    rewrite Hflight in Hstep. discriminate.
  - destruct (read_contract (m_ReadBuffer s) c) eqn:Hcontract.
    + rewrite complete_read_run in Hstep by (assumption || lia). congruence.
    + unfold complete_read, bind, get in Hstep. simpl in Hstep.
      rewrite Hflight, Hcontract in Hstep. discriminate.
Qed.

Lemma session_run_messages (cs : list ReadCompletion) (s s' : Session) :
  m_QueueMutex s = false ->
  session_run (map Completes cs) s = Ok (tt, s') ->
  m_Messages s' = m_Messages s ++ delivered cs.
Proof.
  revert s. induction cs as [|c rest IH]; intros s Hmutex Hrun.
  - injection Hrun as <-. simpl. rewrite app_nil_r. reflexivity.
  - simpl in Hrun. unfold bind in Hrun.
    destruct (complete_read c s) as [[[] s1]|f] eqn:Hstep; [|discriminate].
    apply complete_read_inv in Hstep; [|exact Hmutex]. subst s1.
    rewrite (IH (after_read c s)); [|reflexivity | exact Hrun].
    simpl. destruct (carries_payload c); [|reflexivity].
    rewrite <- app_assoc. reflexivity.
Qed.

(** C3.  Whatever sequence of read completions a session receives, after
    every prefix of it the queue holds the old messages followed by the
    payloads of the non-empty successful reads of that prefix, in arrival
    order, so its length has grown by their number.  And a session that
    is open, not shutting down and has a read in flight does receive
    every sequence of completions that respect the read contract: each
    completion re-arms the next read. *)
Theorem session_queue_fifo (cs : list ReadCompletion) (s : Session) :
  m_QueueMutex s = false ->
  (forall n sn,
     session_run (map Completes (take n cs)) s = Ok (tt, sn) ->
     m_Messages sn = m_Messages s ++ delivered (take n cs) /\
     length (m_Messages sn) =
       (length (m_Messages s) + length (delivered (take n cs)))%nat) /\
  ((0 < reads_in_flight s)%nat ->
   is_open (m_Socket s) = true ->
   m_MasterExit s = false ->
   Forall (fun c => read_contract (m_ReadBuffer s) c = true) cs ->
   forall n, exists sn,
     session_run (map Completes (take n cs)) s = Ok (tt, sn)).
Proof.
  intros Hmutex. split.
  - intros n sn Hrun.
    pose proof (session_run_messages (take n cs) s sn Hmutex Hrun) as Hq.
    split; [exact Hq|]. rewrite Hq, length_app. reflexivity.
  - intros Hflight Hopen Hexit Hall n.
    destruct (session_run_completions (take n cs) s) as (sn & Hrun & _);
      try assumption.
    + apply Forall_take. exact Hall.
    + exists sn. exact Hrun.
Qed.

Lemma session_queue_fifo_witness :
  exists sn,
    session_run
      (map Completes
         (take 3 [mkReadCompletion 0 ["a"; "b"]%char; mkReadCompletion 104 ["x"]%char;
                  mkReadCompletion 0 ["c"; "d"]%char]))
      (mkSession (mkSocket 4 true) ["?"; "?"]%char false true false [] 1 0)
      = Ok (tt, sn) /\
    m_Messages sn = ["ab"; "cd"]%string.
Proof.
  destruct (session_queue_fifo
              [mkReadCompletion 0 ["a"; "b"]%char; mkReadCompletion 104 ["x"]%char;
               mkReadCompletion 0 ["c"; "d"]%char]
              (mkSession (mkSocket 4 true) ["?"; "?"]%char false true false [] 1 0))
    as [Hsafe Hlive].
  - reflexivity.
  - destruct (Hlive ltac:(simpl; lia) eq_refl eq_refl
                ltac:(repeat constructor) 3%nat) as [sn Hrun].
    exists sn. split; [exact Hrun|].
    exact (proj1 (Hsafe 3%nat sn Hrun)).
Defined.

(** *** The read guard *)

Lemma Session_new_run (p_Socket : socket) :
  Session_new p_Socket =
    Ok (tt, mkSession p_Socket [] false (is_open p_Socket) false []
              (if is_open p_Socket then 1 else 0) 0).
Proof.
  unfold Session_new. rewrite StartRead_run. simpl.
  destruct (is_open p_Socket); reflexivity.
Qed.

Lemma StartRead_invariant (s s' : Session) :
  read_invariant s -> StartRead s = Ok (tt, s') -> read_invariant s'.
Proof.
  intros [Hmutex Hcount]. rewrite StartRead_run. intros [= <-].
  destruct (is_open (m_Socket s)), (m_ReadWait s) eqn:Hwait; simpl;
    split; simpl; try assumption; rewrite ?Hwait; lia.
Qed.

Lemma session_step_invariant (e : SessionEvent) (s s' : Session) :
  read_invariant s -> session_step e s = Ok (tt, s') -> read_invariant s'.
Proof.
  intros Hinv Hstep. destruct e as [| |c]; simpl in Hstep.
  - exact (StartRead_invariant s s' Hinv Hstep).
  - rewrite Close_run in Hstep. injection Hstep as <-.
    destruct Hinv as [Hmutex Hcount].
    unfold after_close. destruct (is_open (m_Socket s)); split; assumption.
  - destruct Hinv as [Hmutex Hcount].
    destruct (reads_in_flight s) as [|n] eqn:Hflight.
    + unfold complete_read, bind, get in Hstep. simpl in Hstep.
      rewrite Hflight in Hstep. discriminate.
    + destruct (read_contract (m_ReadBuffer s) c) eqn:Hcontract.
      * rewrite complete_read_run in Hstep by (assumption || lia).
        injection Hstep as <-. unfold after_read. split; simpl; [reflexivity|].
        rewrite Hflight.
        destruct (m_ReadWait s); [|discriminate]. injection Hcount as ->.
        destruct (negb (m_MasterExit s) && is_open (m_Socket s)); reflexivity.
      * unfold complete_read, bind, get in Hstep. simpl in Hstep.
        rewrite Hflight, Hcontract in Hstep. discriminate.
Qed.

Lemma session_run_invariant (es : list SessionEvent) (s s' : Session) :
  read_invariant s -> session_run es s = Ok (tt, s') -> read_invariant s'.
Proof.
  revert s. induction es as [|e rest IH]; intros s Hinv Hrun.
  - injection Hrun as <-. exact Hinv.
  - simpl in Hrun. unfold bind in Hrun.
    destruct (session_step e s) as [[[] s1]|f] eqn:Hstep; [|discriminate].
    apply (IH s1); [|exact Hrun].
    exact (session_step_invariant e s s1 Hinv Hstep).
Qed.

Lemma StartRead_repeated (n : nat) (s : Session) :
  m_ReadWait s = true -> session_run (repeat CallStartRead n) s = Ok (tt, s).
Proof.
  intros Hwait. induction n as [|n IH]; [reflexivity|].
  simpl. unfold bind. rewrite StartRead_run, Hwait, andb_false_r. exact IH.
Qed.

(** C5.  [StartRead] hands a read to the I/O layer only when the socket
    is open and no read is pending, and then raises the flag; in every
    other state it returns with the session unchanged, so any number of
    [StartRead] calls made while a read is pending leaves the session as
    it was.  Hence, in every state a session reaches from its constructor
    through calls of [StartRead] and [Close] and through read
    completions, at most one read is in flight, and one is exactly when
    the flag is up. *)
Theorem StartRead_single_flight :
  (forall t, is_open (m_Socket t) = true -> m_ReadWait t = false ->
     StartRead t =
       Ok (tt, set_reads_in_flight (S (reads_in_flight t)) (set_m_ReadWait true t))) /\
  (forall t, is_open (m_Socket t) = false \/ m_ReadWait t = true ->
     StartRead t = Ok (tt, t)) /\
  (forall n t, m_ReadWait t = true ->
     session_run (repeat CallStartRead n) t = Ok (tt, t)) /\
  (forall p_Socket s0 es s,
     Session_new p_Socket = Ok (tt, s0) ->
     session_run es s0 = Ok (tt, s) ->
     (reads_in_flight s <= 1)%nat /\
     (reads_in_flight s = 1%nat <-> m_ReadWait s = true)).
Proof.
  split; [|split; [|split]].
  - intros t Hopen Hwait. rewrite StartRead_run, Hopen, Hwait. reflexivity.
  - intros t [Hclosed | Hwait]; rewrite StartRead_run.
    + rewrite Hclosed. reflexivity.
    + rewrite Hwait, andb_false_r. reflexivity.
  - intros n t. apply StartRead_repeated.
  - intros p_Socket s0 es s Hnew Hrun.
    assert (read_invariant s0) as Hinv0.
    { rewrite Session_new_run in Hnew. injection Hnew as <-.
      split; simpl; [reflexivity|]. destruct (is_open p_Socket); reflexivity. }
    destruct (session_run_invariant es s0 s Hinv0 Hrun) as [Hmutex Hcount].
    split; [destruct (m_ReadWait s); lia|].
    destruct (m_ReadWait s); split; intros; (reflexivity || lia || discriminate).
Qed.

Lemma StartRead_single_flight_witness :
  (1 <= 1)%nat /\
  StartRead (mkSession (mkSocket 4 false) [] false true false [] 1 1)
    = Ok (tt, mkSession (mkSocket 4 false) [] false true false [] 1 1).
Proof.
  destruct StartRead_single_flight as (_ & Hnoop & _ & Hreach).
  split.
  - refine (proj1 (Hreach (mkSocket 4 true)
              (mkSession (mkSocket 4 true) [] false true false [] 1 0)
              [CallStartRead; Completes (mkReadCompletion 0 []); CallClose; CallStartRead]
              (mkSession (mkSocket 4 false) [] false true false [] 1 1) _ _));
      reflexivity.
  - apply Hnoop. right. reflexivity.
Defined.

(** *** Closing *)

(** C9.  [Close] never fails and leaves the socket closed; it calls the
    socket's close at most once, and only when the socket was open.  A
    second [Close], or the destructor run after a [Close], closes nothing
    more: the second [Close] leaves the session exactly as the first one
    left it, and the destructor only raises the shutdown flag. *)
Theorem Close_idempotent (s : Session) :
  exists s1,
    Close s = Ok (tt, s1) /\
    is_open (m_Socket s1) = false /\
    socket_closes s1 = (socket_closes s + if is_open (m_Socket s) then 1 else 0)%nat /\
    Close s1 = Ok (tt, s1) /\
    (Close;; Close)%eff s = Close s /\
    exists s2,
      (Close;; Session_delete)%eff s = Ok (tt, s2) /\
      s2 = set_m_MasterExit true s1 /\
      is_open (m_Socket s2) = false /\
      socket_closes s2 = socket_closes s1.
Proof.
  exists (after_close s).
  assert (is_open (m_Socket (after_close s)) = false) as Hclosed.
  { unfold after_close. destruct (is_open (m_Socket s)) eqn:E; [reflexivity | exact E]. }
  assert (Close (after_close s) = Ok (tt, after_close s)) as Hagain.
  { rewrite Close_run. unfold after_close at 1. rewrite Hclosed. reflexivity. }
  split; [apply Close_run|]. split; [exact Hclosed|].
  split; [unfold after_close; destruct (is_open (m_Socket s)); simpl; lia|].
  split; [exact Hagain|].
  split; [unfold bind; rewrite Close_run; exact Hagain|].
  exists (set_m_MasterExit true (after_close s)).
  split.
  - unfold bind. rewrite Close_run, Session_delete_run.
    unfold after_close at 1. simpl. rewrite Hclosed. reflexivity.
  - split; [reflexivity|]. split; [exact Hclosed | reflexivity].
Qed.

End SessionFacts.

(* ===================================================================== *)
(** * Properties of Server *)
(* ===================================================================== *)

Section ServerFacts.
Import ServerModel.

Ltac server_compute :=
  cbv [StartAccept AcceptHandler ConnectionWaiting GetNextConnection
       complete_accept async_accept lock unlock under_lock
       queue_push queue_empty queue_front queue_pop
       bind get gets modify ret fail
       set_m_ConnectionsCount set_m_Acceptor set_m_QueueMutex
       set_m_ConnectedSockets set_m_MasterExit set_accepts_in_flight
       m_ConnectionsCount m_Acceptor m_QueueMutex m_ConnectedSockets
       m_MasterExit accepts_in_flight negb].

Lemma AcceptHandler_run (p_Error : error_code) (p_IncomingSocket : socket) (s : Server) :
  m_QueueMutex s = false ->
  AcceptHandler p_Error p_IncomingSocket s =
    Ok (tt, after_accept p_Error p_IncomingSocket s).
Proof.
  intros Hmutex. destruct s as [count acc mu q me fl]. simpl in Hmutex. subst mu.
  unfold after_accept. server_compute.
  destruct (is_success p_Error), me; reflexivity.
Qed.

Lemma complete_accept_run (p_Error : error_code) (p_IncomingSocket : socket) (s : Server) :
  m_QueueMutex s = false ->
  (0 < accepts_in_flight s)%nat ->
  complete_accept p_Error p_IncomingSocket s =
    Ok (tt, after_accept p_Error p_IncomingSocket
              (set_accepts_in_flight (pred (accepts_in_flight s)) s)).
Proof.
  intros Hmutex Hflight.
  destruct (accepts_in_flight s) as [|n] eqn:Hn; [lia|].
  unfold complete_accept, bind at 1, get. rewrite Hn.
  unfold bind at 1, modify. apply AcceptHandler_run. exact Hmutex.
Qed.

Lemma ConnectionWaiting_run (s : Server) :
  m_QueueMutex s = false ->
  ConnectionWaiting s =
    Ok (match m_ConnectedSockets s with [] => false | _ => true end, s).
Proof.
  intros Hmutex. destruct s as [count acc mu q me fl]. simpl in Hmutex. subst mu.
  server_compute. destruct q; reflexivity.
Qed.

Lemma ConnectionWaiting_held (s : Server) :
  m_QueueMutex s = true -> ConnectionWaiting s = Fail Relock.
Proof.
  intros Hmutex. destruct s as [count acc mu q me fl]. simpl in Hmutex. subst mu.
  reflexivity.
Qed.

Lemma GetNextConnection_run (s : Server) (front : socket) (rest : list socket) :
  m_QueueMutex s = false ->
  m_ConnectedSockets s = front :: rest ->
  GetNextConnection s = Ok (Some front, set_m_ConnectedSockets rest s).
Proof.
  intros Hmutex Hq. destruct s as [count acc mu q me fl]. simpl in *. subst mu q.
  reflexivity.
Qed.

Lemma GetNextConnection_empty (s : Server) :
  m_QueueMutex s = false ->
  m_ConnectedSockets s = [] ->
  GetNextConnection s = Fail EmptyQueueAccess.
Proof.
  intros Hmutex Hq. destruct s as [count acc mu q me fl]. simpl in *. subst mu q.
  reflexivity.
Qed.

Lemma GetNextConnection_filled (s s' : Server) (r : option socket) :
  GetNextConnection s = Ok (r, s') -> is_Some r.
Proof.
  destruct s as [count acc [|] q me fl]; [discriminate|].
  destruct q as [|x q']; [discriminate|].
  intros [= <- _]. eauto.
Qed.

Lemma Server_new_run (p_Config : ApplicationConfig) (p_Listen : error_code) :
  Server_new p_Config p_Listen =
    if is_success p_Listen
    then Ok (tt, mkServer 0 (mkAcceptor (GetServerEndPoint p_Config) true) false [] false 1)
    else Fail Uncaught.
Proof.
  unfold Server_new, acceptor_new. destruct (is_success p_Listen); reflexivity.
Qed.

Lemma Server_new_inv (p_Config : ApplicationConfig) (p_Listen : error_code) (s0 : Server) :
  Server_new p_Config p_Listen = Ok (tt, s0) ->
  is_success p_Listen = true /\
  s0 = mkServer 0 (mkAcceptor (GetServerEndPoint p_Config) true) false [] false 1.
Proof.
  rewrite Server_new_run. destruct (is_success p_Listen); [|discriminate].
  intros [= <-]. split; reflexivity.
Qed.

(** *** Claiming the next connection *)

(** C6.  When [ConnectionWaiting] has returned true, the queue has a
    front socket, and [GetNextConnection] returns that socket in a filled
    optional and leaves the rest of the queue; every queue access is made
    with the mutex held and the mutex is free again afterwards.  The
    function has no path that returns an empty optional.  On an empty
    queue it reads the front of an empty [std::queue], which the model
    reports as [EmptyQueueAccess]; that cannot happen under the
    precondition. *)
Theorem GetNextConnection_after_waiting (s s1 : Server) :
  ConnectionWaiting s = Ok (true, s1) ->
  s1 = s /\
  (exists front rest,
     m_ConnectedSockets s = front :: rest /\
     GetNextConnection s = Ok (Some front, set_m_ConnectedSockets rest s) /\
     m_QueueMutex (set_m_ConnectedSockets rest s) = false) /\
  GetNextConnection s <> Fail EmptyQueueAccess /\
  GetNextConnection s <> Fail UnlockedAccess /\
  (forall t t' r, GetNextConnection t = Ok (r, t') -> r <> None) /\
  (forall t, m_QueueMutex t = false -> m_ConnectedSockets t = [] ->
     ConnectionWaiting t = Ok (false, t) /\
     GetNextConnection t = Fail EmptyQueueAccess).
Proof.
  intros Hwaiting.
  destruct (m_QueueMutex s) eqn:Hmutex.
  { rewrite ConnectionWaiting_held in Hwaiting by exact Hmutex. discriminate. }
  rewrite ConnectionWaiting_run in Hwaiting by exact Hmutex.
  destruct (m_ConnectedSockets s) as [|front rest] eqn:Hq; [discriminate|].
  injection Hwaiting as <-.
  pose proof (GetNextConnection_run s front rest Hmutex Hq) as Hnext.
  split; [reflexivity|].
  split; [exists front, rest; repeat split; assumption|].
  split; [rewrite Hnext; discriminate|].
  split; [rewrite Hnext; discriminate|].
  split.
  - intros t t' r Hr ->. apply GetNextConnection_filled in Hr.
    destruct Hr as [x Hx]. discriminate.
  - intros t Ht Hempty. split.
    + rewrite ConnectionWaiting_run, Hempty by exact Ht. reflexivity.
    + apply GetNextConnection_empty; assumption.
Qed.

Lemma GetNextConnection_after_waiting_witness :
  GetNextConnection
    (mkServer 2 (mkAcceptor (mkEndpoint "0.0.0.0" 7500) true) false
       [mkSocket 11 true; mkSocket 12 true] false 1)
  <> Fail EmptyQueueAccess.
Proof.
  refine (proj1 (proj2 (proj2 (GetNextConnection_after_waiting
    (mkServer 2 (mkAcceptor (mkEndpoint "0.0.0.0" 7500) true) false
       [mkSocket 11 true; mkSocket 12 true] false 1)
    (mkServer 2 (mkAcceptor (mkEndpoint "0.0.0.0" 7500) true) false
       [mkSocket 11 true; mkSocket 12 true] false 1) _)))).
  reflexivity.
Defined.

(** *** The pending queue under accepts and claims *)

Lemma server_run_queue (es : list ServerEvent) (s : Server) :
  accepting s ->
  (forall n, (claims (take n es) <=
              length (m_ConnectedSockets s) + pushes (take n es))%nat) ->
  exists s',
    server_run es s = Ok (tt, s') /\
    accepting s' /\
    (length (m_ConnectedSockets s') + claims es =
     length (m_ConnectedSockets s) + pushes es)%nat.
Proof.
  revert s. induction es as [|e rest IH]; intros s Hacc Hbal.
  - exists s. split; [reflexivity|]. split; [exact Hacc | simpl; lia].
  - destruct Hacc as (Hmutex & Hexit & Hflight).
    destruct e as [err sock|].
    + pose proof (complete_accept_run err sock s Hmutex Hflight) as Hstep.
      set (s1 := after_accept err sock
                   (set_accepts_in_flight (pred (accepts_in_flight s)) s)) in *.
      assert (length (m_ConnectedSockets s1) =
              (length (m_ConnectedSockets s) + if is_success err then 1 else 0)%nat) as Hlen.
      { unfold s1, after_accept. simpl.
        destruct (is_success err); [rewrite length_app; simpl|]; lia. }
      destruct (IH s1) as (s' & Hrun & Hacc' & Hcount).
      * unfold s1, after_accept, accepting. simpl. rewrite Hexit. repeat split. lia.
      * intros n. specialize (Hbal (S n)). simpl in Hbal. lia.
      * exists s'. split; [|split; [exact Hacc'|]].
        -- simpl. unfold bind. rewrite Hstep. exact Hrun.
        -- simpl. lia.
    + pose proof (Hbal 1%nat) as Hone. simpl in Hone. rewrite ?take_0 in Hone.
      simpl in Hone.
      destruct (m_ConnectedSockets s) as [|front q] eqn:Hq; [simpl in Hone; lia|].
      pose proof (GetNextConnection_run s front q Hmutex Hq) as Hstep.
      destruct (IH (set_m_ConnectedSockets q s)) as (s' & Hrun & Hacc' & Hcount).
      * repeat split; assumption.
      * intros n. specialize (Hbal (S n)). simpl in Hbal. simpl. lia.
      * exists s'. split; [|split; [exact Hacc'|]].
        -- simpl. unfold bind. rewrite Hstep. exact Hrun.
        -- simpl in Hcount |- *. lia.
Qed.

Lemma balanced_take (es : list ServerEvent) (n : nat) :
  balanced es -> balanced (take n es).
Proof. intros H m. rewrite take_take. apply H. Qed.

(** C4.  Starting from a freshly constructed server, for every sequence
    of accept completions and claims in which no prefix claims more than
    was pushed, the run succeeds, and after every prefix the length of
    the pending queue is the number of successful accepts of the prefix
    minus the number of its claims.  With one successful accept followed
    by one claim, [ConnectionWaiting] is true before the claim and false
    right after it. *)
Theorem pending_queue_length
    (p_Config : ApplicationConfig) (p_Listen : error_code)
    (s0 : Server) (es : list ServerEvent) :
  Server_new p_Config p_Listen = Ok (tt, s0) ->
  balanced es ->
  (forall n, exists sn,
     server_run (take n es) s0 = Ok (tt, sn) /\
     length (m_ConnectedSockets sn) =
       (pushes (take n es) - claims (take n es))%nat) /\
  (exists s',
     server_run es s0 = Ok (tt, s') /\
     length (m_ConnectedSockets s') = (pushes es - claims es)%nat) /\
  (forall sock, exists s2,
     (complete_accept 0 sock;;
      before <- ConnectionWaiting;;
      claimed <- GetNextConnection;;
      after <- ConnectionWaiting;;
      ret (before, claimed, after))%eff s0
     = Ok ((true, Some sock, false), s2)).
Proof.
  intros Hnew Hbal.
  apply Server_new_inv in Hnew as [_ ->].
  assert (forall es', balanced es' -> exists s',
            server_run es'
              (mkServer 0 (mkAcceptor (GetServerEndPoint p_Config) true) false [] false 1)
              = Ok (tt, s') /\
            length (m_ConnectedSockets s') = (pushes es' - claims es')%nat) as Hany.
  { intros es' Hbal'.
    destruct (server_run_queue es'
                (mkServer 0 (mkAcceptor (GetServerEndPoint p_Config) true) false [] false 1))
      as (s' & Hrun & _ & Hcount).
    - repeat split. simpl. lia.
    - intros n. simpl. apply Hbal'.
    - exists s'. split; [exact Hrun|]. simpl in Hcount. lia. }
  split; [|split].
  - intros n. apply Hany. apply balanced_take. exact Hbal.
  - apply Hany. exact Hbal.
  - intros sock. eexists. reflexivity.
Qed.

Lemma pending_queue_length_witness :
  exists s',
    server_run [Accepted 0 (mkSocket 1 true); Accepted 111 (mkSocket 2 true);
                Accepted 0 (mkSocket 3 true); Claim]
      (mkServer 0 (mkAcceptor (mkEndpoint "0.0.0.0" 8000) true) false [] false 1)
      = Ok (tt, s') /\
    length (m_ConnectedSockets s') = 1%nat.
Proof.
  refine (proj1 (proj2 (pending_queue_length
            (mkApplicationConfig Parsing.Server "127.0.0.1" 8000) 0
            (mkServer 0 (mkAcceptor (mkEndpoint "0.0.0.0" 8000) true) false [] false 1)
            [Accepted 0 (mkSocket 1 true); Accepted 111 (mkSocket 2 true);
             Accepted 0 (mkSocket 3 true); Claim] _ _))).
  - reflexivity.
  - intros n. destruct n as [|[|[|[|n]]]]; simpl; rewrite ?take_nil; simpl; lia.
Defined.

(** *** Re-arming *)

Lemma accept_completions_keep_accepting (es : list ServerEvent) (s : Server) :
  accepting s ->
  Forall (fun e => e <> Claim) es ->
  exists s', server_run es s = Ok (tt, s') /\ accepting s' /\
             accepts_in_flight s' = accepts_in_flight s.
Proof.
  revert s. induction es as [|e rest IH]; intros s Hacc Hall.
  - exists s. split; [reflexivity|]. split; [exact Hacc | reflexivity].
  - inversion Hall as [|? ? He Hrest]; subst.
    destruct e as [err sock|]; [|congruence].
    destruct Hacc as (Hmutex & Hexit & Hflight).
    pose proof (complete_accept_run err sock s Hmutex Hflight) as Hstep.
    set (s1 := after_accept err sock
                 (set_accepts_in_flight (pred (accepts_in_flight s)) s)) in *.
    assert (accepts_in_flight s1 = accepts_in_flight s) as Hsame.
    { unfold s1, after_accept. simpl. rewrite Hexit. lia. }
    destruct (IH s1) as (s' & Hrun & Hacc' & Hfl).
    + unfold accepting. rewrite Hsame. unfold s1, after_accept. simpl. auto.
    + exact Hrest.
    + exists s'. split; [|split; [exact Hacc'|congruence]].
      simpl. unfold bind. rewrite Hstep. exact Hrun.
Qed.

(** C7.  The accept handler, whatever the error code, hands a new accept
    to the I/O layer when the shutdown flag is down, and none when it is
    up.  So an accept completion on a server that is not shutting down
    leaves as many accepts in flight as before it (the one retired is
    replaced), a failed completion included, and after any sequence of
    accept completions the server is still accepting.  When the flag is
    up the completion retires the accept and arms none. *)
Theorem accept_rearms (p_Error : error_code) (p_IncomingSocket : socket) (s : Server) :
  m_QueueMutex s = false ->
  (0 < accepts_in_flight s)%nat ->
  (exists s',
     AcceptHandler p_Error p_IncomingSocket s = Ok (tt, s') /\
     m_MasterExit s' = m_MasterExit s /\
     accepts_in_flight s' =
       (accepts_in_flight s + if m_MasterExit s then 0 else 1)%nat) /\
  (exists s',
     complete_accept p_Error p_IncomingSocket s = Ok (tt, s') /\
     (m_MasterExit s = false ->
        accepts_in_flight s' = accepts_in_flight s /\ (0 < accepts_in_flight s')%nat) /\
     (m_MasterExit s = true ->
        accepts_in_flight s' = pred (accepts_in_flight s)) /\
     (p_Error <> 0 -> m_ConnectedSockets s' = m_ConnectedSockets s)) /\
  (m_MasterExit s = false ->
   forall es, Forall (fun e => e <> Claim) es ->
     exists s', server_run es s = Ok (tt, s') /\
                m_MasterExit s' = false /\ (0 < accepts_in_flight s')%nat).
Proof.
  intros Hmutex Hflight. split; [|split].
  - exists (after_accept p_Error p_IncomingSocket s).
    split; [apply AcceptHandler_run; exact Hmutex|].
    unfold after_accept. simpl. split; [reflexivity|].
    destruct (m_MasterExit s); lia.
  - eexists. split; [apply complete_accept_run; assumption|].
    unfold after_accept. simpl.
    split; [intros ->; lia|]. split; [intros ->; reflexivity|].
    intros Herr. unfold is_success.
    destruct (Z.eqb_spec p_Error 0); [contradiction | reflexivity].
  - intros Hexit es Hall.
    destruct (accept_completions_keep_accepting es s) as (s' & Hrun & Hacc & _);
      [repeat split; assumption | exact Hall |].
    exists s'. split; [exact Hrun|]. destruct Hacc as (_ & He & Hf). auto.
Qed.

Lemma accept_rearms_witness :
  exists s',
    complete_accept 24 (mkSocket 9 false)
      (mkServer 5 (mkAcceptor (mkEndpoint "0.0.0.0" 7500) true) false [] false 1)
      = Ok (tt, s') /\
    accepts_in_flight s' = 1%nat.
Proof.
  destruct (accept_rearms 24 (mkSocket 9 false)
              (mkServer 5 (mkAcceptor (mkEndpoint "0.0.0.0" 7500) true) false [] false 1))
    as (_ & (s' & Hrun & Hkeep & _) & _).
  - reflexivity.
  - simpl. lia.
  - exists s'. split; [exact Hrun|]. apply Hkeep. reflexivity.
Defined.

End ServerFacts.

(* ===================================================================== *)
(** * Properties of the driver *)
(* ===================================================================== *)

Section DriverFacts.
Import Driver.

Lemma fresh_session_read (c : SessionModel.ReadCompletion) (p_Socket : socket) :
  is_open p_Socket = true ->
  SessionModel.read_contract [] c = true ->
  SessionModel.complete_read c (fresh_session p_Socket) = Ok (tt, fresh_session p_Socket).
Proof.
  intros Hopen Hcontract.
  rewrite complete_read_run; [| reflexivity | simpl; rewrite Hopen; lia | exact Hcontract].
  pose proof (read_contract_bound _ _ Hcontract) as Hbound. simpl in Hbound.
  assert (SessionModel.rc_data c = []) as Hdata.
  { unfold SessionModel.rc_bytes in Hbound.
    destruct (SessionModel.rc_data c); [reflexivity | simpl in Hbound; lia]. }
  unfold after_read, fresh_session, carries_payload, SessionModel.rc_bytes.
  simpl. rewrite Hdata, Hopen. simpl. rewrite andb_false_r. reflexivity.
Qed.

Lemma uint64_increment (ops : Z) :
  0 <= ops < 100 -> (ops + 1) `mod` UINT64_MODULUS = ops + 1.
Proof.
  intros H. unfold UINT64_MODULUS. apply Z.mod_small.
  change (2 ^ 64) with 18446744073709551616. lia.
Qed.

Ltac driver_compute :=
  cbv [loop_body run_one on_server on_session new_session zoom
       bind get gets modify ret fail
       l_Server l_Sessions l_Ops set_l_Server set_l_Sessions set_l_Ops].

Lemma loop_body_run (e : Completion) (socks : list socket) (st : RunServerLocals) :
  running socks st ->
  script_ok (map is_open socks) [e] = true ->
  0 <= l_Ops st < 100 ->
  exists st',
    loop_body e st = Ok (tt, st') /\
    running (socks ++ accepted [e]) st' /\
    l_Ops st' = l_Ops st + 1.
Proof.
  intros (Hacc & Hqueue & Hsessions) Hok Hops.
  destruct st as [server sessions ops]. simpl in *.
  destruct Hacc as (Hmutex & Hexit & Hflight).
  destruct e as [err sock | i c].
  - (* an accept completes *)
    destruct server as [count acc mu q me fl]. simpl in *. subst mu q me sessions.
    destruct fl as [|n]; [lia|].
    driver_compute.
    rewrite complete_accept_run by (simpl; reflexivity || lia).
    unfold after_accept; simpl.
    rewrite (uint64_increment ops) by exact Hops.
    destruct (is_success err) eqn:Hsuccess.
    + simpl. rewrite Session_new_run.
      eexists. split; [reflexivity|]. simpl.
      split; [|reflexivity].
      split; [repeat split; simpl; lia|].
      split; [reflexivity|]. simpl.
      rewrite map_app. reflexivity.
    + simpl.
      eexists. split; [reflexivity|]. simpl.
      split; [|reflexivity].
      split; [repeat split; simpl; lia|].
      split; [reflexivity|]. simpl. rewrite app_nil_r. reflexivity.
  - (* a read completes *)
    subst sessions.
    destruct (map is_open socks !! i) as [[|]|] eqn:Hi; try discriminate.
    rewrite andb_true_r in Hok.
    rewrite list_lookup_fmap in Hi.
    destruct (socks !! i) as [sock|] eqn:Hsock; [|discriminate].
    simpl in Hi. injection Hi as Hopen.
    driver_compute.
    rewrite list_lookup_fmap, Hsock. simpl.
    rewrite fresh_session_read by assumption.
    rewrite (uint64_increment ops) by exact Hops.
    rewrite ConnectionWaiting_run by exact Hmutex. rewrite Hqueue.
    eexists. split; [reflexivity|]. simpl.
    split; [|reflexivity].
    split; [repeat split; assumption|].
    split; [exact Hqueue|]. simpl. rewrite app_nil_r.
    apply list_insert_id. rewrite list_lookup_fmap, Hsock. reflexivity.
Qed.


Lemma script_ok_cons (opens : list bool) (e : Completion) (rest : list Completion) :
  script_ok opens (e :: rest) =
    script_ok opens [e] && script_ok (opens ++ map is_open (accepted [e])) rest.
Proof.
  destruct e as [err sock | i c]; simpl.
  - destruct (is_success err); simpl; rewrite ?app_nil_r; reflexivity.
  - destruct (opens !! i) as [[|]|]; simpl; rewrite ?app_nil_r, ?andb_true_r; reflexivity.
Qed.

Lemma accepted_cons (e : Completion) (rest : list Completion) :
  accepted (e :: rest) = accepted [e] ++ accepted rest.
Proof.
  destruct e as [err sock | i c]; simpl; [destruct (is_success err)|]; reflexivity.
Qed.

(** The loop performs the completions one by one until [l_Ops] is 100;
    a script that ends before that leaves [run_one] waiting. *)
Lemma server_loop_run (script : list Completion) (n : nat)
    (socks : list socket) (st : RunServerLocals) :
  running socks st ->
  (0 < n <= 100)%nat ->
  l_Ops st = 100 - Z.of_nat n ->
  script_ok (map is_open socks) (take n script) = true ->
  ((n <= length script)%nat ->
   exists st',
     server_loop script st = Ok (drop n script, st') /\
     running (socks ++ accepted (take n script)) st' /\
     l_Ops st' = 100) /\
  ((length script < n)%nat -> server_loop script st = Fail Blocked).
Proof.
  revert n socks st.
  induction script as [|e rest IH]; intros n socks st Hrun Hn Hops Hok.
  - split; [simpl; lia | reflexivity].
  - destruct n as [|n']; [lia|].
    change (take (S n') (e :: rest)) with (e :: take n' rest) in *.
    rewrite script_ok_cons in Hok. apply andb_true_iff in Hok as [Hhead Htail].
    destruct (loop_body_run e socks st Hrun Hhead) as (st1 & Hbody & Hrun1 & Hops1);
      [lia|].
    assert (server_loop (e :: rest) st =
            (if l_Ops st1 <? 100 then server_loop rest st1 else Ok (rest, st1)))
      as Hunfold.
    { simpl. unfold bind at 1. rewrite Hbody. unfold bind, gets.
      destruct (l_Ops st1 <? 100); reflexivity. }
    rewrite Hunfold, accepted_cons, app_assoc.
    destruct n' as [|n''].
    + assert ((l_Ops st1 <? 100) = false) as -> by (apply Z.ltb_ge; lia).
      rewrite take_0. simpl. rewrite app_nil_r. split; [|lia].
      intros _. exists st1. repeat split; try apply Hrun1. lia.
    + assert ((l_Ops st1 <? 100) = true) as -> by (apply Z.ltb_lt; lia).
      rewrite <- map_app in Htail.
      destruct (IH (S n'') (socks ++ accepted [e]) st1 Hrun1) as [Hdone Hblocked];
        [lia | lia | exact Htail |].
      split.
      * intros Hlen. apply Hdone. simpl in Hlen. lia.
      * intros Hlen. apply Hblocked. simpl in Hlen. lia.
Qed.

Lemma delete_sessions_run (socks : list socket) :
  delete_sessions (map fresh_session socks) = Ok (map deleted_session socks).
Proof.
  induction socks as [|sock rest IH]; [reflexivity|].
  simpl. rewrite Session_delete_run, IH.
  unfold after_close, fresh_session, deleted_session.
  destruct sock as [handle [|]]; reflexivity.
Qed.

Lemma deleted_sessions_closed (socks : list socket) :
  Forall (fun s => SessionModel.m_MasterExit s = true /\
                   is_open (SessionModel.m_Socket s) = false /\
                   (SessionModel.socket_closes s <= 1)%nat)
         (map deleted_session socks).
Proof.
  apply Forall_fmap, Forall_true. intros sock. simpl.
  repeat split. destruct (is_open sock); lia.
Qed.




End DriverFacts.

(* ===================================================================== *)
(** * Further properties of the command line parser *)
(* ===================================================================== *)

Section ParsingMore.

Lemma first_of_adjacent_none {B} (f : string * string -> option B) (args : list string) :
  (forall i a b, args !! i = Some a -> args !! S i = Some b -> f (a, b) = None) ->
  first_of f (adjacent args) = None.
Proof.
  induction args as [|x rest IH]; intros Hnone; [reflexivity|].
  destruct rest as [|x' rest']; [reflexivity|].
  rewrite adjacent_cons2, first_of_cons.
  rewrite (Hnone 0%nat x x') by reflexivity.
  apply IH. intros i a b Ha Hb. apply (Hnone (S i)); assumption.
Qed.

Lemma first_of_adjacent_inv {B} (f : string * string -> option B)
    (args : list string) (y : B) :
  first_of f (adjacent args) = Some y ->
  exists i a b, args !! i = Some a /\ args !! S i = Some b /\ f (a, b) = Some y.
Proof.
  induction args as [|x rest IH]; [discriminate|].
  destruct rest as [|x' rest']; [discriminate|].
  rewrite adjacent_cons2, first_of_cons.
  destruct (f (x, x')) as [y'|] eqn:Hx.
  - intros [= ->]. exists 0%nat, x, x'. auto.
  - intros H. destruct (IH H) as (i & a & b & Ha & Hb & Hf).
    exists (S i), a, b. auto.
Qed.

Lemma role_of_cases (t : string) (mode : Mode) :
  role_of t = Some mode ->
  (t = c_ClientString /\ mode = Client) \/ (t = c_ServerString /\ mode = Server).
Proof.
  unfold role_of.
  destruct (String.eqb_spec t c_ClientString); [intros [= <-]; auto|].
  destruct (String.eqb_spec t c_ServerString); [intros [= <-]; auto|].
  discriminate.
Qed.

(** [Create] yields no configuration exactly when no [server] or
    [client] token has a successor: an empty list, a list without a role
    token, and a list whose only role token is its last token are all
    refused. *)
Theorem Create_refuses (args : list string) :
  Create args = None <->
  (forall i t, args !! i = Some t -> (S i < length args)%nat ->
               t <> c_ServerString /\ t <> c_ClientString).
Proof.
  rewrite Create_spec. split.
  - intros Hnone i t Ht Hlen.
    destruct (first_role args) as [mode|] eqn:Hfirst; [discriminate|].
    destruct (successor_exists args i Hlen) as [b Hb].
    destruct (role_of t) as [mode|] eqn:Hrole.
    + destruct (first_of_adjacent_some role_at args i t b mode Ht Hb Hrole) as [m Hm].
      unfold first_role in Hfirst. congruence.
    + split; intros ->; vm_compute in Hrole; discriminate.
  - intros Hnone.
    assert (first_role args = None) as ->; [|reflexivity].
    apply first_of_adjacent_none. intros i a b Ha Hb.
    unfold role_at. simpl.
    destruct (role_of a) as [mode|] eqn:Hrole; [|reflexivity].
    assert (S i < length args)%nat as Hlen by (apply lookup_lt_Some in Hb; exact Hb).
    destruct (Hnone i a Ha Hlen) as [Hs Hc].
    apply role_of_cases in Hrole. destruct Hrole as [[-> _] | [-> _]]; contradiction.
Qed.

Lemma Create_refuses_witness :
  Create ["prog"; "address"; "1.2.3.4"; "server"]%string = None.
Proof.
  apply (proj2 (Create_refuses ["prog"; "address"; "1.2.3.4"; "server"]%string)).
  intros i t Ht Hlen.
  destruct i as [|[|[|i]]]; simpl in Ht, Hlen; try lia;
    injection Ht as <-; split; discriminate.
Defined.

Lemma Create_role_origin (args : list string) (config : ApplicationConfig) :
  Create args = Some config ->
  exists i t, args !! i = Some t /\ (S i < length args)%nat /\
              role_of t = Some (m_Mode config).
Proof.
  rewrite Create_spec.
  destruct (first_role args) as [mode|] eqn:Hfirst; [|discriminate].
  intros [= <-]. simpl.
  destruct (first_of_adjacent_inv role_at args mode Hfirst) as (i & a & b & Ha & Hb & Hf).
  exists i, a. split; [exact Ha|]. split; [|exact Hf].
  apply lookup_lt_Some in Hb. exact Hb.
Qed.

(** Every configuration [Create] produces has the role Server or Client
    (never Unknown), taken from a role token of the list that has a
    successor, and a port between 0 and 65535. *)
Theorem Create_wellformed (args : list string) (config : ApplicationConfig) :
  Create args = Some config ->
  (m_Mode config = Server \/ m_Mode config = Client) /\
  0 <= m_Port config <= 65535 /\
  exists i t, args !! i = Some t /\ (S i < length args)%nat /\
              role_of t = Some (m_Mode config).
Proof.
  rewrite Create_spec.
  destruct (first_role args) as [mode|] eqn:Hfirst; [|discriminate].
  intros [= <-]. simpl.
  destruct (first_of_adjacent_inv role_at args mode Hfirst) as (i & a & b & Ha & Hb & Hf).
  unfold role_at in Hf. simpl in Hf.
  split; [|split].
  - apply role_of_cases in Hf. destruct Hf as [[_ ->] | [_ ->]]; auto.
  - destruct (first_port args) as [v|]; simpl.
    + unfold PortNumber_of_int.
      pose proof (Z.mod_pos_bound v 65536 ltac:(lia)). lia.
    + unfold c_DefaultPortNumber. lia.
  - exists i, a. split; [exact Ha|]. split; [|exact Hf].
    apply lookup_lt_Some in Hb. exact Hb.
Qed.

Lemma Create_wellformed_witness :
  0 <= m_Port (mkApplicationConfig Client "127.0.0.1" 65534) <= 65535.
Proof.
  refine (proj1 (proj2 (Create_wellformed ["client"; "port"; "-2"]%string
                          (mkApplicationConfig Client "127.0.0.1" 65534) _))).
  reflexivity.
Defined.

(** When a configuration is produced and no [address] token has a
    successor, the address is 127.0.0.1; when no [port] token has a
    successor that parses as an int (none is given, or the text is empty,
    not a number, or beyond the range of int), the port is 7500: the
    default takes the place of a port text that cannot be used. *)
Theorem Create_defaults (args : list string) (config : ApplicationConfig) :
  Create args = Some config ->
  ((forall i b, args !! i = Some c_AddressString -> args !! S i = Some b -> False) ->
   m_Address config = "127.0.0.1"%string) /\
  ((forall i b, args !! i = Some c_PortString -> args !! S i = Some b ->
                fst (TryParse_int b 0) = false) ->
   m_Port config = 7500).
Proof.
  rewrite Create_spec.
  destruct (first_role args) as [mode|]; [|discriminate].
  intros [= <-]. simpl. split.
  - intros Hnone.
    assert (first_address args = None) as ->; [|reflexivity].
    apply first_of_adjacent_none. intros i a b Ha Hb.
    unfold address_at. simpl.
    destruct (String.eqb_spec a c_AddressString) as [->|]; [|reflexivity].
    exfalso. eauto.
  - intros Hnone.
    assert (first_port args = None) as ->; [|reflexivity].
    apply first_of_adjacent_none. intros i a b Ha Hb.
    apply port_at_unparsed. intros ->. eauto.
Qed.

Lemma Create_defaults_witness :
  m_Port (mkApplicationConfig Server "127.0.0.1" 7500) = 7500.
Proof.
  refine (proj2 (Create_defaults
            ["server"; "port"; "eighty"; "port"; "99999999999"; "port"; ""]%string
            (mkApplicationConfig Server "127.0.0.1" 7500) _) _).
  - reflexivity.
  - intros i b Hi Hb.
    destruct i as [|[|[|[|[|[|[|i]]]]]]]; simpl in Hi, Hb; try discriminate;
      injection Hb as <-; reflexivity.
Defined.

(** When a configuration is produced, its address is the token that
    follows the first [address] token having a successor, whatever that
    token is; and a port value between 0 and 65535 that follows the first
    [port] token with a parsable successor is kept as it is. *)
Theorem Create_supplied (args : list string) (config : ApplicationConfig) :
  Create args = Some config ->
  (forall j a,
     args !! j = Some c_AddressString -> args !! S j = Some a ->
     (forall k, (k < j)%nat -> args !! k <> Some c_AddressString) ->
     m_Address config = a) /\
  (forall j s v,
     args !! j = Some c_PortString -> args !! S j = Some s ->
     TryParse_int s 0 = (true, v) -> 0 <= v <= 65535 ->
     (forall k t, (k < j)%nat -> args !! k = Some c_PortString ->
                  args !! S k = Some t -> fst (TryParse_int t 0) = false) ->
     m_Port config = v).
Proof.
  rewrite Create_spec.
  destruct (first_role args) as [mode|]; [|discriminate].
  intros [= <-]. simpl. split.
  - intros j a Hj Ha Hfirst.
    assert (first_address args = Some a) as ->; [|reflexivity].
    apply (first_of_adjacent_at address_at args j c_AddressString a);
      [assumption | assumption | reflexivity |].
    intros k a' b' Hk Hka Hkb. unfold address_at. simpl.
    destruct (String.eqb_spec a' c_AddressString) as [->|]; [|reflexivity].
    exfalso. exact (Hfirst k Hk Hka).
  - intros j s v Hj Hs Hparse Hrange Hfirst.
    assert (first_port args = Some v) as ->.
    { apply (first_of_adjacent_at port_at args j c_PortString s);
        [assumption | assumption | apply port_at_parsed; assumption |].
      intros k a' b' Hk Hka Hkb. apply port_at_unparsed. intros ->. eauto. }
    simpl. unfold PortNumber_of_int. apply Z.mod_small. lia.
Qed.

Lemma Create_supplied_witness :
  m_Address (mkApplicationConfig Client "server" 443) = "server"%string /\
  m_Port (mkApplicationConfig Client "server" 443) = 443.
Proof.
  destruct (Create_supplied
              ["client"; "port"; "x"; "address"; "server"; "port"; "443"; "address"; "b"]%string
              (mkApplicationConfig Client "server" 443)) as [Haddr Hport].
  - reflexivity.
  - split.
    + apply (Haddr 3%nat); [reflexivity | reflexivity |].
      intros k Hk. destruct k as [|[|[|k]]]; simpl; try lia; discriminate.
    + apply (Hport 5%nat "443"%string); [reflexivity | reflexivity | reflexivity | lia |].
      intros k t Hk Hkp Hkt.
      destruct k as [|[|[|[|[|k]]]]]; simpl in Hkp, Hkt; try lia; try discriminate.
      injection Hkt as <-. reflexivity.
Defined.

End ParsingMore.

(* ===================================================================== *)
(** * Further properties of TryParse and StringToLower *)
(* ===================================================================== *)

Section TextMore.
Import Driver.

(** Cutting a text at its first zero character does not change what
    [std::stoi] makes of it: a parse stops at the first character that is
    no white space, sign or digit. *)
Lemma skip_space_c_str (s : string) : skip_space (c_str s) = c_str (skip_space s).
Proof.
  induction s as [|c rest IH]; [reflexivity|].
  simpl. destruct (Ascii.eqb_spec c zero) as [->|Hc].
  - reflexivity.
  - simpl. destruct (isspace c); [exact IH|].
    simpl. destruct (Ascii.eqb_spec c zero); [contradiction | reflexivity].
Qed.

Lemma read_sign_c_str (s : string) :
  read_sign (c_str s) = (fst (read_sign s), c_str (snd (read_sign s))).
Proof.
  destruct s as [|c rest]; [reflexivity|].
  destruct c as [[] [] [] [] [] [] [] []]; reflexivity.
Qed.

Lemma read_digits_c_str (s : string) (acc : Z) (seen : bool) :
  read_digits (c_str s) acc seen = read_digits s acc seen.
Proof.
  revert acc seen. induction s as [|c rest IH]; intros acc seen; [reflexivity|].
  simpl. destruct (Ascii.eqb_spec c zero) as [->|Hc].
  - reflexivity.
  - simpl. destruct (digit_value c); [apply IH | reflexivity].
Qed.

Lemma stoi_c_str (s : string) : stoi (c_str s) = stoi s.
Proof.
  unfold stoi. rewrite skip_space_c_str, read_sign_c_str.
  destruct (read_sign (skip_space s)) as [negative body]. simpl.
  rewrite read_digits_c_str. reflexivity.
Qed.

(** [TryParse<int>] on a [std::string]. *)
Lemma TryParse_int_token (p_String : string) (p_Output : Z) :
  TryParse_int p_String p_Output =
    match p_String with
    | EmptyString => (false, p_Output)
    | _ =>
        match stoi p_String with
        | stoi_value v => (true, v)
        | stoi_invalid_argument => (false, p_Output)
        | stoi_out_of_range => (false, p_Output)
        end
    end.
Proof.
  unfold TryParse_int, TryParse, view_of_string. simpl.
  rewrite stoi_c_str. destruct p_String; reflexivity.
Qed.

(** [TryParse<int>] reports success only with a value an [int] can hold
    and only for a text that is not empty; on failure the output
    parameter keeps the value it had. *)
Theorem TryParse_int_result (p_String : string) (p_Output : Z) (ok : bool) (v : Z) :
  TryParse_int p_String p_Output = (ok, v) ->
  if ok
  then INT_MIN <= v <= INT_MAX /\ p_String <> EmptyString
  else v = p_Output.
Proof.
  rewrite TryParse_int_token.
  destruct p_String as [|c rest]; [intros [= <- <-]; reflexivity|].
  unfold stoi.
  destruct (read_sign (skip_space (String c rest))) as [negative body].
  destruct (read_digits body 0 false) as [magnitude|]; [|intros [= <- <-]; reflexivity].
  destruct ((INT_MIN <=? (if negative then - magnitude else magnitude)) &&
            ((if negative then - magnitude else magnitude) <=? INT_MAX)) eqn:Hrange;
    intros [= <- <-]; [|reflexivity].
  apply andb_true_iff in Hrange as [Hlo Hhi].
  apply Z.leb_le in Hlo, Hhi. split; [lia | discriminate].
Qed.

Lemma TryParse_int_result_witness :
  INT_MIN <= -2147483648 <= INT_MAX /\ "-2147483648"%string <> EmptyString.
Proof.
  exact (TryParse_int_result "-2147483648" 0 true (-2147483648) eq_refl).
Defined.

Lemma skip_space_append (s t : string) :
  skip_space s <> EmptyString ->
  skip_space (String.append s t) = String.append (skip_space s) t.
Proof.
  induction s as [|c rest IH]; simpl; [congruence|].
  destruct (isspace c); [exact IH | reflexivity].
Qed.

Lemma read_digits_append (body t : string) (acc : Z) (seen : bool) (m : Z) :
  read_digits body acc seen = Some m ->
  no_leading_digit t = true ->
  read_digits (String.append body t) acc seen = Some m.
Proof.
  intros Hread Ht. revert acc seen Hread.
  induction body as [|c rest IH]; intros acc seen Hread; simpl in *.
  - destruct seen; [|discriminate].
    destruct t as [|c' t']; [exact Hread|]. simpl in *.
    destruct (digit_value c'); [discriminate | exact Hread].
  - destruct (digit_value c); [apply IH; exact Hread | exact Hread].
Qed.

Lemma TryParse_int_append (s t : string) (d d' v : Z) :
  TryParse_int s d = (true, v) ->
  no_leading_digit t = true ->
  TryParse_int (String.append s t) d' = (true, v).
Proof.
  intros Hparse Ht. rewrite TryParse_int_token in Hparse.
  assert (stoi s = stoi_value v /\ s <> EmptyString) as [Hstoi Hne].
  { destruct s; [discriminate|].
    destruct (stoi (String a s)); try discriminate.
    injection Hparse as <-. split; [reflexivity | discriminate]. }
  assert (stoi (String.append s t) = stoi_value v) as Hstoi'.
  { unfold stoi in *.
    destruct (skip_space s) as [|c rest] eqn:Hskip; [discriminate|].
    rewrite skip_space_append by (rewrite Hskip; discriminate).
    rewrite Hskip.
    assert (read_sign (String.append (String c rest) t) =
            (fst (read_sign (String c rest)),
             String.append (snd (read_sign (String c rest))) t)) as ->.
    { simpl. destruct c as [[] [] [] [] [] [] [] []]; reflexivity. }
    destruct (read_sign (String c rest)) as [negative body]. simpl.
    destruct (read_digits body 0 false) as [magnitude|] eqn:Hdigits; [|discriminate].
    rewrite (read_digits_append body t 0 false magnitude Hdigits Ht).
    exact Hstoi. }
  rewrite TryParse_int_token, Hstoi'.
  destruct (String.append s t) eqn:Happ; [|reflexivity].
  destruct s; [contradiction | discriminate].
Qed.

(** [TryParse<int>] parses the C string at [data()] and uses the size of
    the view only to refuse an empty view.  So a view that is not empty
    gives the result of the whole text stored from its start on: the view
    80 over the text 8000 parses as 8000.  For a [std::string], which is
    what [Create] passes, the text is the string itself, and whatever
    follows its digits is ignored: appending a text that does not start
    with a digit to a string that parses leaves the value unchanged
    (8000/tcp parses as 8000). *)
Theorem TryParse_reads_c_string :
  (forall (p_String : string_view) (p_Output : Z),
     sv_size p_String <> 0%nat ->
     TryParse p_String p_Output = TryParse_int (sv_storage p_String) p_Output) /\
  (forall (s t : string) (d d' v : Z),
     TryParse_int s d = (true, v) ->
     no_leading_digit t = true ->
     TryParse_int (String.append s t) d' = (true, v)).
Proof.
  split.
  - intros [storage size] d Hsize. simpl in *.
    rewrite TryParse_int_token. unfold TryParse. simpl.
    destruct size as [|n]; [contradiction|].
    rewrite stoi_c_str. destruct storage; reflexivity.
  - apply TryParse_int_append.
Qed.

Lemma TryParse_reads_c_string_witness :
  TryParse (mkStringView "8000" 2) 7 = (true, 8000) /\
  TryParse_int (String.append " +8000" "/tcp") 7 = (true, 8000).
Proof.
  destruct TryParse_reads_c_string as [Hview Htoken]. split.
  - rewrite (Hview (mkStringView "8000" 2) 7); [reflexivity | discriminate].
  - exact (Htoken " +8000" "/tcp" 0 7 8000 eq_refl eq_refl).
Defined.

Lemma tolower_idempotent (c : ascii) : tolower (tolower c) = tolower c.
Proof. destruct c as [[] [] [] [] [] [] [] []]; reflexivity. Qed.

Lemma tolower_not_upper (c : ascii) : is_upper (tolower c) = false.
Proof. destruct c as [[] [] [] [] [] [] [] []]; reflexivity. Qed.

Lemma tolower_fixes (c : ascii) : is_upper c = false -> tolower c = c.
Proof. unfold tolower, is_upper. intros ->. reflexivity. Qed.

(** [StringToLower] keeps the length of the text, leaves no upper case
    letter in it, changes nothing in a text that has none, and so gives
    the same result when applied twice. *)
Theorem StringToLower_normalises (s : string) :
  String.length (StringToLower s) = String.length s /\
  has_upper (StringToLower s) = false /\
  (has_upper s = false -> StringToLower s = s) /\
  StringToLower (StringToLower s) = StringToLower s.
Proof.
  induction s as [|c rest (Hlen & Hup & Hfix & Hidem)]; simpl.
  - repeat split.
  - split; [rewrite Hlen; reflexivity|].
    split; [rewrite tolower_not_upper, Hup; reflexivity|].
    split.
    + intros H. apply orb_false_iff in H as [Hc Hrest].
      rewrite (tolower_fixes c Hc), (Hfix Hrest). reflexivity.
    + rewrite tolower_idempotent, Hidem. reflexivity.
Qed.

Lemma StringToLower_normalises_witness :
  StringToLower "address" = "address"%string.
Proof.
  exact (proj1 (proj2 (proj2 (StringToLower_normalises "address"))) eq_refl).
Defined.

Lemma StringToLower_idempotent (s : string) :
  StringToLower (StringToLower s) = StringToLower s.
Proof.
  induction s as [|c rest IH]; simpl; [reflexivity|].
  rewrite tolower_idempotent, IH. reflexivity.
Qed.

Lemma StringToLower_map_idempotent (l : list string) :
  map StringToLower (map StringToLower l) = map StringToLower l.
Proof.
  induction l as [|s rest IH]; simpl; [reflexivity|].
  rewrite IH, StringToLower_idempotent. reflexivity.
Qed.

(** [main] reads its arguments without regard to letter case: a run on
    the arguments and a run on their lower case forms are the same run. *)
Theorem main_ignores_case
    (p_argv : list string) (p_Listen : error_code) (script : list Completion) :
  main (map StringToLower p_argv) p_Listen script = main p_argv p_Listen script.
Proof. unfold main. rewrite StringToLower_map_idempotent. reflexivity. Qed.

(** Unless some argument that has a successor reads [server] once in
    lower case, [main] starts no server: it builds no acceptor, consumes
    no completion and ends with exit code 0.  This covers the client
    role, for which nothing is implemented, and the missing role. *)
Theorem main_without_server
    (p_argv : list string) (p_Listen : error_code) (script : list Completion) :
  (forall i t, p_argv !! i = Some t -> (S i < length p_argv)%nat ->
               StringToLower t <> c_ServerString) ->
  main p_argv p_Listen script = Ok (0, None).
Proof.
  intros Hnone. unfold main.
  destruct (Create (map StringToLower p_argv)) as [config|] eqn:Hcreate; [|reflexivity].
  destruct (Create_role_origin _ _ Hcreate) as (i & t & Ht & Hlen & Hrole).
  destruct (m_Mode config) eqn:Hmode; try reflexivity.
  exfalso.
  rewrite list_lookup_fmap in Ht.
  destruct (p_argv !! i) as [t0|] eqn:Hi; [|discriminate].
  simpl in Ht. injection Ht as <-.
  rewrite length_map in Hlen.
  apply role_of_cases in Hrole. destruct Hrole as [[_ ?] | [Hs _]]; [discriminate|].
  exact (Hnone i t0 Hi Hlen Hs).
Qed.

Lemma main_without_server_witness :
  main ["StandaloneAsio"; "Client"; "address"; "10.0.0.1"; "server"]%string 98
       [AcceptDone 0 (mkSocket 1 true)]
    = Ok (0, None).
Proof.
  apply main_without_server. intros i t Ht Hlen.
  destruct i as [|[|[|[|i]]]]; simpl in Ht, Hlen; try lia;
    injection Ht as <-; discriminate.
Defined.

End TextMore.

(* ===================================================================== *)
(** * Further properties of Session *)
(* ===================================================================== *)

Section SessionMore.
Import SessionModel.

Ltac session_unfold :=
  cbv [StartRead ReadHandler async_read lock unlock push_message
       bind get gets modify ret fail
       set_m_Socket set_m_ReadBuffer set_m_MasterExit set_m_ReadWait
       set_m_QueueMutex set_m_Messages set_reads_in_flight set_socket_closes
       m_Socket m_ReadBuffer m_MasterExit m_ReadWait m_QueueMutex m_Messages
       reads_in_flight socket_closes is_open native_handle negb andb].

(** What one event may change, with no assumption on the session. *)
Lemma complete_read_effect (c : ReadCompletion) (s s' : Session) :
  complete_read c s = Ok (tt, s') ->
  m_Socket s' = m_Socket s /\
  m_MasterExit s' = m_MasterExit s /\
  socket_closes s' = socket_closes s /\
  length (m_ReadBuffer s') = length (m_ReadBuffer s) /\
  (m_Messages s' = m_Messages s \/
   ((0 < length (m_ReadBuffer s))%nat /\ rc_error c = 0 /\
    m_Messages s' = m_Messages s ++ [string_of_list_ascii (m_ReadBuffer s')])) /\
  m_ReadWait s' = negb (m_MasterExit s) && is_open (m_Socket s) /\
  S (reads_in_flight s') =
    (reads_in_flight s +
     if negb (m_MasterExit s) && is_open (m_Socket s) then 1 else 0)%nat.
Proof.
  destruct s as [[h opened] buf me rw mu msgs fl cl].
  unfold complete_read, bind at 1, get. simpl.
  destruct fl as [|n]; [discriminate|].
  destruct (read_contract buf c) eqn:Hcontract; [|discriminate].
  pose proof (store_bytes_length (rc_data c) buf (read_contract_bound _ _ Hcontract)) as Hlen.
  session_unfold.
  destruct (is_success (rc_error c)) eqn:Hok.
  - apply Z.eqb_eq in Hok.
    destruct (0 <? length (store_bytes (rc_data c) buf))%nat eqn:Hpos.
    + apply Nat.ltb_lt in Hpos. rewrite Hlen in Hpos.
      destruct mu; [discriminate|].
      destruct me, opened; intros [= <-]; simpl;
        repeat split; try assumption; try lia; right; auto.
    + destruct me, opened; intros [= <-]; simpl;
        repeat split; try assumption; try lia; left; reflexivity.
  - destruct me, opened; intros [= <-]; simpl;
      repeat split; try assumption; try lia; left; reflexivity.
Qed.

Lemma session_step_effect (e : SessionEvent) (s s' : Session) :
  session_step e s = Ok (tt, s') ->
  native_handle (m_Socket s') = native_handle (m_Socket s) /\
  m_MasterExit s' = m_MasterExit s /\
  length (m_ReadBuffer s') = length (m_ReadBuffer s) /\
  (m_Messages s' = m_Messages s \/
   ((0 < length (m_ReadBuffer s))%nat /\
    exists x, m_Messages s' = m_Messages s ++ [x])) /\
  (is_open (m_Socket s') = true ->
     is_open (m_Socket s) = true /\ socket_closes s' = socket_closes s) /\
  (is_open (m_Socket s) = false ->
     is_open (m_Socket s') = false /\
     socket_closes s' = socket_closes s /\
     (reads_in_flight s' <= reads_in_flight s)%nat) /\
  (is_open (m_Socket s) = true -> is_open (m_Socket s') = false ->
     socket_closes s' = S (socket_closes s)).
Proof.
  destruct e as [| |c]; simpl.
  - rewrite StartRead_run. intros [= <-].
    destruct (is_open (m_Socket s)) eqn:Hopen, (m_ReadWait s); simpl;
      repeat split; auto; try congruence; try lia.
  - rewrite Close_run. intros [= <-]. unfold after_close.
    destruct (is_open (m_Socket s)) eqn:Hopen; simpl;
      repeat split; auto; try congruence; try lia.
  - intros Hstep.
    destruct (complete_read_effect c s s' Hstep)
      as (Hsock & Hexit & Hcl & Hlen & Hmsg & Hwait & Hfl).
    rewrite Hsock. repeat split; auto; try congruence.
    + destruct Hmsg as [? | (? & _ & ?)]; [left; assumption | right; eauto].
    + match goal with H : is_open _ = false |- _ => rewrite H, andb_false_r in Hfl end.
      lia.
Qed.

(** Once its socket is closed a session stays closed, closes nothing
    more and never hands a new read to the I/O layer, whatever is called
    on it and whatever completes: no member function opens the socket,
    [StartRead] returns with the session unchanged, and the reads in
    flight go down by one with every completion.  Since a read handed to
    the I/O layer adds one to them, the exact count after the run (what
    was in flight, less the completions) shows that none was handed. *)
Theorem closed_session_stays_idle (es : list SessionEvent) (s s' : Session) :
  is_open (m_Socket s) = false ->
  session_run es s = Ok (tt, s') ->
  is_open (m_Socket s') = false /\
  socket_closes s' = socket_closes s /\
  (reads_in_flight s' + read_completions es = reads_in_flight s)%nat /\
  StartRead s' = Ok (tt, s').
Proof.
  revert s. induction es as [|e rest IH]; intros s Hclosed Hrun.
  - injection Hrun as <-. simpl. rewrite StartRead_run, Hclosed.
    split; [reflexivity|]. split; [reflexivity|]. split; [lia | reflexivity].
  - simpl in Hrun. unfold bind in Hrun.
    destruct (session_step e s) as [[[] s1]|f] eqn:Hstep; [|discriminate].
    assert (is_open (m_Socket s1) = false /\
            socket_closes s1 = socket_closes s /\
            (reads_in_flight s1 +
               match e with Completes _ => 1 | _ => 0 end = reads_in_flight s)%nat)
      as (Hclosed1 & Hcl1 & Hfl1).
    { destruct e as [| |c]; simpl in Hstep.
      - rewrite StartRead_run, Hclosed in Hstep. injection Hstep as <-.
        split; [exact Hclosed|]. split; [reflexivity | lia].
      - rewrite Close_run in Hstep. unfold after_close in Hstep.
        rewrite Hclosed in Hstep. injection Hstep as <-.
        split; [exact Hclosed|]. split; [reflexivity | lia].
      - destruct (complete_read_effect c s s1 Hstep)
          as (Hsock & _ & Hcl & _ & _ & _ & Hfl).
        rewrite Hclosed, andb_false_r in Hfl.
        rewrite Hsock. split; [exact Hclosed|]. split; [exact Hcl | lia]. }
    destruct (IH s1 Hclosed1 Hrun) as (Hc & Hcl & Hfl & Hstart).
    split; [exact Hc|]. split; [congruence|].
    split; [destruct e; simpl; lia | exact Hstart].
Qed.

Lemma closed_session_stays_idle_witness :
  is_open (m_Socket (mkSession (mkSocket 4 false) [] false false false [] 0 1)) = false /\
  socket_closes (mkSession (mkSocket 4 false) [] false false false [] 0 1) = 1%nat /\
  (reads_in_flight (mkSession (mkSocket 4 false) [] false false false [] 0 1) + 1
     = 1)%nat.
Proof.
  destruct (closed_session_stays_idle
              [CallStartRead; Completes (mkReadCompletion 125 []); CallStartRead; CallClose]
              (mkSession (mkSocket 4 false) [] false true false [] 1 1)
              (mkSession (mkSocket 4 false) [] false false false [] 0 1))
    as (Hclosed & Hcl & Hfl & _); try reflexivity.
  split; [exact Hclosed|]. split; [exact Hcl | exact Hfl].
Defined.

(** No member function removes a message: along any run of calls and
    completions the queue only grows at its back, the shutdown flag and
    the identity of the socket stay as they were, and the size of the
    buffer does not change. *)
Theorem session_queue_only_grows (es : list SessionEvent) (s s' : Session) :
  session_run es s = Ok (tt, s') ->
  (exists more, m_Messages s' = m_Messages s ++ more) /\
  m_MasterExit s' = m_MasterExit s /\
  native_handle (m_Socket s') = native_handle (m_Socket s) /\
  length (m_ReadBuffer s') = length (m_ReadBuffer s).
Proof.
  revert s. induction es as [|e rest IH]; intros s Hrun.
  - injection Hrun as <-. split; [exists []; rewrite app_nil_r; reflexivity | auto].
  - simpl in Hrun. unfold bind in Hrun.
    destruct (session_step e s) as [[[] s1]|f] eqn:Hstep; [|discriminate].
    destruct (session_step_effect e s s1 Hstep) as (Hh & Hexit & Hlen & Hmsg & _).
    destruct (IH s1 Hrun) as ((more & Hmore) & Hexit' & Hh' & Hlen').
    split; [|repeat split; congruence].
    destruct Hmsg as [Hsame | (_ & x & Hx)].
    + exists more. congruence.
    + exists (x :: more). rewrite Hmore, Hx, <- app_assoc. reflexivity.
Qed.

Lemma session_queue_only_grows_witness :
  exists more, ["old"; "hi"]%string = ["old"%string] ++ more.
Proof.
  refine (proj1 (session_queue_only_grows
            [Completes (mkReadCompletion 0 ["h"; "i"]%char); CallClose]
            (mkSession (mkSocket 4 true) ["?"; "?"]%char false true false ["old"%string] 1 0)
            (mkSession (mkSocket 4 false) ["h"; "i"]%char false true false
                       ["old"; "hi"]%string 1 1) _)).
  reflexivity.
Defined.

(** A session built by the constructor never queues a message.  The
    constructor leaves [m_ReadBuffer] designating no memory and nothing
    assigns it later, so along any run of calls and completions the
    buffer stays empty, every read that succeeds is an empty one, and the
    message queue stays empty.  The socket is closed at most once, and it
    is open again at no point after that. *)
Theorem constructed_session_receives_nothing
    (p_Socket : socket) (s0 : Session) (es : list SessionEvent) (s : Session) :
  Session_new p_Socket = Ok (tt, s0) ->
  session_run es s0 = Ok (tt, s) ->
  m_ReadBuffer s = [] /\
  m_Messages s = [] /\
  (socket_closes s <= 1)%nat /\
  (is_open (m_Socket s) = true -> socket_closes s = 0%nat /\ is_open p_Socket = true).
Proof.
  intros Hnew Hrun.
  rewrite Session_new_run in Hnew. injection Hnew as <-.
  remember (mkSession p_Socket [] false (is_open p_Socket) false []
              (if is_open p_Socket then 1 else 0)%nat 0) as s0 eqn:Es0.
  assert (m_ReadBuffer s0 = [] /\ m_Messages s0 = [] /\
          (socket_closes s0 <= 1)%nat /\
          (is_open (m_Socket s0) = true ->
             socket_closes s0 = 0%nat /\ is_open p_Socket = true)) as Hinv.
  { subst s0. simpl. repeat split; auto. }
  clear Es0. revert s0 Hinv Hrun.
  induction es as [|e rest IH]; intros s0 Hinv Hrun.
  - injection Hrun as <-. exact Hinv.
  - simpl in Hrun. unfold bind in Hrun.
    destruct (session_step e s0) as [[[] s1]|f] eqn:Hstep; [|discriminate].
    apply (IH s1); [|exact Hrun].
    destruct Hinv as (Hbuf & Hmsg & Hcl & Hopen).
    destruct (session_step_effect e s0 s1 Hstep)
      as (_ & _ & Hlen & Hmsgs & Hstill & Hidle & Hclose).
    rewrite Hbuf in Hlen, Hmsgs. simpl in Hlen, Hmsgs.
    split; [destruct (m_ReadBuffer s1); [reflexivity | discriminate]|].
    split; [destruct Hmsgs as [-> | [? _]]; [exact Hmsg | lia]|].
    split.
    + destruct (is_open (m_Socket s0)) eqn:H0, (is_open (m_Socket s1)) eqn:H1.
      * destruct (Hstill eq_refl) as [_ ->]. exact Hcl.
      * rewrite (Hclose eq_refl eq_refl). destruct (Hopen eq_refl) as [-> _]. lia.
      * destruct (Hidle eq_refl) as (? & _ & _). congruence.
      * destruct (Hidle eq_refl) as (_ & -> & _). exact Hcl.
    + intros H1. destruct (Hstill H1) as [H0 ->]. exact (Hopen H0).
Qed.

Lemma constructed_session_receives_nothing_witness :
  m_Messages (mkSession (mkSocket 4 false) [] false true false [] 1 1) = [].
Proof.
  refine (proj1 (proj2 (constructed_session_receives_nothing (mkSocket 4 true)
            (mkSession (mkSocket 4 true) [] false true false [] 1 0)
            [Completes (mkReadCompletion 0 []); Completes (mkReadCompletion 2 []);
             CallClose; CallStartRead]
            (mkSession (mkSocket 4 false) [] false true false [] 1 1) _ _)));
    reflexivity.
Defined.

(** The close count of a session built from [p_Socket], by whether its
    socket is open now. *)
Lemma session_run_closes (p_Socket : socket) (es : list SessionEvent) (s0 s : Session) :
  Session_new p_Socket = Ok (tt, s0) ->
  session_run es s0 = Ok (tt, s) ->
  m_MasterExit s = false /\
  socket_closes s =
    (if is_open (m_Socket s) then 0 else if is_open p_Socket then 1 else 0)%nat /\
  (is_open (m_Socket s) = true -> is_open p_Socket = true).
Proof.
  intros Hnew Hrun.
  rewrite Session_new_run in Hnew. injection Hnew as <-.
  remember (mkSession p_Socket [] false (is_open p_Socket) false []
              (if is_open p_Socket then 1 else 0)%nat 0) as s0 eqn:Es0.
  assert (m_MasterExit s0 = false /\
          socket_closes s0 =
            (if is_open (m_Socket s0) then 0 else if is_open p_Socket then 1 else 0)%nat /\
          (is_open (m_Socket s0) = true -> is_open p_Socket = true)) as Hinv.
  { subst s0. simpl. destruct (is_open p_Socket); auto. }
  clear Es0. revert s0 Hinv Hrun.
  induction es as [|e rest IH]; intros s0 Hinv Hrun.
  - injection Hrun as <-. exact Hinv.
  - simpl in Hrun. unfold bind in Hrun.
    destruct (session_step e s0) as [[[] s1]|f] eqn:Hstep; [|discriminate].
    apply (IH s1); [|exact Hrun].
    destruct Hinv as (Hexit & Hcl & Hopen).
    destruct (session_step_effect e s0 s1 Hstep)
      as (_ & Hexit1 & _ & _ & Hstill & Hidle & Hclose).
    split; [congruence|].
    destruct (is_open (m_Socket s0)) eqn:H0, (is_open (m_Socket s1)) eqn:H1.
    + destruct (Hstill eq_refl) as [_ ->]. auto.
    + rewrite (Hclose eq_refl eq_refl), Hcl, (Hopen eq_refl).
      split; [reflexivity | discriminate].
    + destruct (Hidle eq_refl) as (? & _ & _). congruence.
    + destruct (Hidle eq_refl) as (_ & -> & _). split; [exact Hcl | discriminate].
Qed.



(** [InReadWait] tells whether a read is in flight.  In every state a
    session reaches from its constructor, it returns true exactly when
    one read is in flight and false exactly when none is, and it leaves
    the session as it was. *)
Theorem InReadWait_reports_flight
    (p_Socket : socket) (s0 : Session) (es : list SessionEvent) (s : Session) :
  Session_new p_Socket = Ok (tt, s0) ->
  session_run es s0 = Ok (tt, s) ->
  exists waiting,
    InReadWait s = Ok (waiting, s) /\
    (waiting = true <-> reads_in_flight s = 1%nat) /\
    (waiting = false <-> reads_in_flight s = 0%nat).
Proof.
  intros Hnew Hrun.
  assert (read_invariant s0) as Hinv0.
  { rewrite Session_new_run in Hnew. injection Hnew as <-.
    split; simpl; [reflexivity|]. destruct (is_open p_Socket); reflexivity. }
  destruct (session_run_invariant es s0 s Hinv0 Hrun) as [_ Hcount].
  exists (m_ReadWait s). split; [reflexivity|].
  rewrite Hcount. destruct (m_ReadWait s); split; split; intros; (reflexivity || lia || discriminate).
Qed.

Lemma InReadWait_reports_flight_witness :
  exists waiting,
    InReadWait (mkSession (mkSocket 4 false) [] false false false [] 0 1)
      = Ok (waiting, mkSession (mkSocket 4 false) [] false false false [] 0 1) /\
    waiting = false.
Proof.
  destruct (InReadWait_reports_flight (mkSocket 4 true)
              (mkSession (mkSocket 4 true) [] false true false [] 1 0)
              [CallClose; Completes (mkReadCompletion 125 [])]
              (mkSession (mkSocket 4 false) [] false false false [] 0 1))
    as (waiting & Hcall & _ & Hdown); try reflexivity.
  exists waiting. split; [exact Hcall|]. apply Hdown. reflexivity.
Defined.

End SessionMore.

(* ===================================================================== *)
(** * Further properties of Server *)
(* ===================================================================== *)

Section ServerMore.
Import ServerModel.

Lemma count_step (count : Z) (n : nat) :
  ((count + 1) `mod` UINT64_MODULUS + Z.of_nat n) `mod` UINT64_MODULUS =
  (count + Z.of_nat (S n)) `mod` UINT64_MODULUS.
Proof.
  rewrite Zplus_mod_idemp_l. f_equal. lia.
Qed.

(** The whole state of the pending queue and of the counter after a run
    of accept completions and claims. *)
Lemma server_run_state (es : list ServerEvent) (s : Server) :
  accepting s ->
  (forall n, (claims (take n es) <=
              length (m_ConnectedSockets s) + pushes (take n es))%nat) ->
  exists s',
    server_run es s = Ok (tt, s') /\
    accepting s' /\
    m_ConnectedSockets s' =
      drop (claims es) (m_ConnectedSockets s ++ pushed_sockets es) /\
    m_ConnectionsCount s' `mod` UINT64_MODULUS =
      (m_ConnectionsCount s + Z.of_nat (completions es)) `mod` UINT64_MODULUS /\
    m_Acceptor s' = m_Acceptor s.
Proof.
  revert s. induction es as [|e rest IH]; intros s Hacc Hbal.
  - exists s. split; [reflexivity|]. split; [exact Hacc|]. simpl.
    rewrite app_nil_r, Z.add_0_r. auto.
  - destruct Hacc as (Hmutex & Hexit & Hflight).
    destruct e as [err sock|].
    + pose proof (complete_accept_run err sock s Hmutex Hflight) as Hstep.
      set (s1 := after_accept err sock
                   (set_accepts_in_flight (pred (accepts_in_flight s)) s)) in *.
      destruct (IH s1) as (s' & Hrun & Hacc' & Hq & Hcount & Hacceptor).
      * unfold s1, after_accept, accepting. simpl. rewrite Hexit. repeat split. lia.
      * intros n. specialize (Hbal (S n)). simpl in Hbal.
        unfold s1, after_accept. simpl.
        destruct (is_success err); [rewrite length_app; simpl|]; lia.
      * exists s'. split; [simpl; unfold bind; rewrite Hstep; exact Hrun|].
        split; [exact Hacc'|]. split; [|split].
        -- rewrite Hq. unfold s1, after_accept. simpl.
           destruct (is_success err); [rewrite <- app_assoc|]; reflexivity.
        -- rewrite Hcount. unfold s1, after_accept. simpl completions.
           simpl m_ConnectionsCount. apply count_step.
        -- rewrite Hacceptor. reflexivity.
    + pose proof (Hbal 1%nat) as Hone. simpl in Hone. rewrite ?take_0 in Hone.
      simpl in Hone.
      destruct (m_ConnectedSockets s) as [|front q] eqn:Hq; [simpl in Hone; lia|].
      pose proof (GetNextConnection_run s front q Hmutex Hq) as Hstep.
      destruct (IH (set_m_ConnectedSockets q s)) as (s' & Hrun & Hacc' & Hq' & Hcount & Hacceptor).
      * repeat split; assumption.
      * intros n. specialize (Hbal (S n)). simpl in Hbal. simpl. lia.
      * exists s'. split; [simpl; unfold bind; rewrite Hstep; exact Hrun|].
        split; [exact Hacc'|]. split; [|split].
        -- rewrite Hq'. reflexivity.
        -- rewrite Hcount. reflexivity.
        -- rewrite Hacceptor. reflexivity.
Qed.

Lemma count_in_range (es : list ServerEvent) (s s' : Server) :
  0 <= m_ConnectionsCount s < UINT64_MODULUS ->
  server_run es s = Ok (tt, s') ->
  0 <= m_ConnectionsCount s' < UINT64_MODULUS.
Proof.
  revert s. induction es as [|e rest IH]; intros s Hrange Hrun.
  - injection Hrun as <-. exact Hrange.
  - simpl in Hrun. unfold bind at 1 in Hrun.
    destruct (server_step e s) as [[[] s1]|f] eqn:Hstep; [|discriminate].
    apply (IH s1); [|exact Hrun].
    destruct e as [err sock|]; simpl in Hstep.
    + destruct s as [count acc mu q me fl].
      unfold complete_accept, bind at 1, get in Hstep. simpl in Hstep.
      destruct fl as [|n]; [discriminate|].
      unfold bind at 1, modify in Hstep. simpl in Hstep.
      assert (m_ConnectionsCount s1 = (count + 1) `mod` UINT64_MODULUS) as ->.
      { revert Hstep.
        cbv [AcceptHandler StartAccept async_accept lock unlock under_lock
             queue_push bind get gets modify ret fail
             set_m_ConnectionsCount set_m_QueueMutex set_m_ConnectedSockets
             set_accepts_in_flight m_ConnectionsCount m_Acceptor m_QueueMutex
             m_ConnectedSockets m_MasterExit accepts_in_flight negb].
        destruct (is_success err), mu, me; intros [= <-]; reflexivity. }
      apply Z.mod_pos_bound. reflexivity.
    + unfold bind in Hstep.
      destruct (GetNextConnection s) as [[r s2]|f] eqn:Hnext; [|discriminate].
      injection Hstep as <-.
      destruct s as [count acc [|] q me fl]; [discriminate|].
      destruct q as [|x q']; [discriminate|].
      injection Hnext as _ <-. exact Hrange.
Qed.

(** Sockets are claimed in the order they were accepted.  After any
    balanced run of accept completions and claims on a constructed
    server, the pending queue holds the sockets of the successful accepts
    in arrival order, less the ones already claimed; so the next claim
    returns the oldest socket that was accepted and not yet claimed. *)
Theorem pending_queue_fifo
    (p_Config : ApplicationConfig) (p_Listen : error_code)
    (s0 : Server) (es : list ServerEvent) :
  Server_new p_Config p_Listen = Ok (tt, s0) ->
  balanced es ->
  exists s',
    server_run es s0 = Ok (tt, s') /\
    m_ConnectedSockets s' = drop (claims es) (pushed_sockets es) /\
    (forall sock, pushed_sockets es !! claims es = Some sock ->
       exists s'', GetNextConnection s' = Ok (Some sock, s'') /\
                   m_ConnectedSockets s'' = drop (S (claims es)) (pushed_sockets es)).
Proof.
  intros Hnew Hbal.
  apply Server_new_inv in Hnew as [_ ->].
  destruct (server_run_state es
              (mkServer 0 (mkAcceptor (GetServerEndPoint p_Config) true) false [] false 1))
    as (s' & Hrun & Hacc & Hq & _ & _).
  - repeat split. simpl. lia.
  - intros n. simpl. apply Hbal.
  - simpl in Hq. exists s'. split; [exact Hrun|]. split; [exact Hq|].
    intros sock Hsock.
    destruct (drop (claims es) (pushed_sockets es)) as [|front rest] eqn:Hdrop.
    + apply (f_equal (fun l => l !! 0%nat)) in Hdrop.
      rewrite lookup_drop, Nat.add_0_r, Hsock in Hdrop. discriminate.
    + assert (front = sock) as ->.
      { apply (f_equal (fun l => l !! 0%nat)) in Hdrop.
        rewrite lookup_drop, Nat.add_0_r, Hsock in Hdrop. simpl in Hdrop. congruence. }
      destruct Hacc as (Hmutex & _ & _).
      eexists. split; [apply (GetNextConnection_run s' sock rest Hmutex Hq)|].
      simpl.
      replace (S (claims es)) with (claims es + 1)%nat by lia.
      rewrite <- drop_drop, Hdrop. reflexivity.
Qed.

Lemma pending_queue_fifo_witness :
  exists s',
    server_run [Accepted 0 (mkSocket 1 true); Accepted 0 (mkSocket 2 true); Claim;
                Accepted 111 (mkSocket 3 true); Accepted 0 (mkSocket 4 true)]
      (mkServer 0 (mkAcceptor (mkEndpoint "0.0.0.0" 8000) true) false [] false 1)
      = Ok (tt, s') /\
    m_ConnectedSockets s' = [mkSocket 2 true; mkSocket 4 true].
Proof.
  destruct (pending_queue_fifo
              (mkApplicationConfig Parsing.Server "127.0.0.1" 8000) 0
              (mkServer 0 (mkAcceptor (mkEndpoint "0.0.0.0" 8000) true) false [] false 1)
              [Accepted 0 (mkSocket 1 true); Accepted 0 (mkSocket 2 true); Claim;
               Accepted 111 (mkSocket 3 true); Accepted 0 (mkSocket 4 true)])
    as (s' & Hrun & Hq & _).
  - reflexivity.
  - intros n. destruct n as [|[|[|[|[|n]]]]]; simpl; rewrite ?take_nil; simpl; lia.
  - exists s'. split; [exact Hrun | exact Hq].
Defined.

(** [m_ConnectionsCount] counts accept completions, not connections: on
    a constructed server it is the number of completions handled so far
    (reduced modulo 2^64), the failed ones included, and claims do not
    change it. *)
Theorem connections_count_counts_completions
    (p_Config : ApplicationConfig) (p_Listen : error_code)
    (s0 : Server) (es : list ServerEvent) :
  Server_new p_Config p_Listen = Ok (tt, s0) ->
  balanced es ->
  exists s',
    server_run es s0 = Ok (tt, s') /\
    m_ConnectionsCount s' = Z.of_nat (completions es) `mod` 2 ^ 64 /\
    (pushes es <= completions es)%nat.
Proof.
  intros Hnew Hbal.
  apply Server_new_inv in Hnew as [_ ->].
  set (s0 := mkServer 0 (mkAcceptor (GetServerEndPoint p_Config) true) false [] false 1).
  destruct (server_run_state es s0) as (s' & Hrun & _ & _ & Hcount & _).
  - repeat split. simpl. lia.
  - intros n. simpl. apply Hbal.
  - exists s'. split; [exact Hrun|]. split.
    + pose proof (count_in_range es s0 s' ltac:(simpl; unfold UINT64_MODULUS; lia) Hrun)
        as Hrange.
      rewrite Z.mod_small in Hcount by exact Hrange.
      rewrite Hcount. reflexivity.
    + clear. induction es as [|[err sock|] rest IH]; simpl; [lia | | exact IH].
      destruct (is_success err); lia.
Qed.

Lemma connections_count_counts_completions_witness :
  exists s',
    server_run [Accepted 24 (mkSocket 0 false); Accepted 0 (mkSocket 2 true); Claim;
                Accepted 24 (mkSocket 0 false)]
      (mkServer 0 (mkAcceptor (mkEndpoint "0.0.0.0" 8000) true) false [] false 1)
      = Ok (tt, s') /\
    m_ConnectionsCount s' = 3.
Proof.
  destruct (connections_count_counts_completions
              (mkApplicationConfig Parsing.Server "127.0.0.1" 8000) 0
              (mkServer 0 (mkAcceptor (mkEndpoint "0.0.0.0" 8000) true) false [] false 1)
              [Accepted 24 (mkSocket 0 false); Accepted 0 (mkSocket 2 true); Claim;
               Accepted 24 (mkSocket 0 false)])
    as (s' & Hrun & Hcount & _).
  - reflexivity.
  - intros n. destruct n as [|[|[|[|n]]]]; simpl; rewrite ?take_nil; simpl; lia.
  - exists s'. split; [exact Hrun|]. rewrite Hcount. reflexivity.
Defined.

Lemma GetNextConnection_inv (s s' : Server) (r : option socket) :
  GetNextConnection s = Ok (r, s') ->
  exists front rest,
    m_ConnectedSockets s = front :: rest /\
    m_QueueMutex s = false /\
    r = Some front /\
    s' = set_m_ConnectedSockets rest s.
Proof.
  destruct s as [count acc [|] q me fl]; [discriminate|].
  destruct q as [|x q']; [discriminate|].
  intros [= <- <-]. exists x, q'. repeat split.
Qed.

Lemma server_run_single_accept (es : list ServerEvent) (s s' : Server) :
  accepting s ->
  accepts_in_flight s = 1%nat ->
  server_run es s = Ok (tt, s') ->
  accepting s' /\ accepts_in_flight s' = 1%nat /\ m_Acceptor s' = m_Acceptor s.
Proof.
  revert s. induction es as [|e rest IH]; intros s Hacc Hone Hrun.
  - injection Hrun as <-. auto.
  - simpl in Hrun. unfold bind at 1 in Hrun.
    destruct (server_step e s) as [[[] s1]|f] eqn:Hstep; [|discriminate].
    destruct Hacc as (Hmutex & Hexit & Hflight).
    assert (accepting s1 /\ accepts_in_flight s1 = 1%nat /\
            m_Acceptor s1 = m_Acceptor s) as (Hacc1 & Hone1 & Hacceptor1).
    { destruct e as [err sock|]; simpl in Hstep.
      - rewrite complete_accept_run in Hstep by assumption.
        injection Hstep as <-. unfold after_accept, accepting. simpl.
        rewrite Hexit, Hone. repeat split. lia.
      - unfold bind in Hstep.
        destruct (GetNextConnection s) as [[r s2]|f] eqn:Hnext; [|discriminate].
        injection Hstep as <-.
        destruct (GetNextConnection_inv s s2 r Hnext) as (front & q & _ & _ & _ & ->).
        repeat split; assumption. }
    destruct (IH s1 Hacc1 Hone1 Hrun) as (Hacc' & Hone' & Hacceptor').
    split; [exact Hacc'|]. split; [exact Hone'|].
    rewrite Hacceptor'. exact Hacceptor1.
Qed.

(** A constructed [Server] has exactly one accept in flight at every
    moment of its life: every completion retires one and arms one, and a
    claim touches none.  The destructor raises the shutdown flag and
    closes the acceptor; it neither retires that accept nor claims the
    sockets still pending, which go with the object. *)
Theorem Server_single_accept_until_deleted
    (p_Config : ApplicationConfig) (p_Listen : error_code)
    (s0 : Server) (es : list ServerEvent) (s : Server) :
  Server_new p_Config p_Listen = Ok (tt, s0) ->
  server_run es s0 = Ok (tt, s) ->
  accepts_in_flight s = 1%nat /\
  m_MasterExit s = false /\
  acceptor_is_open (m_Acceptor s) = true /\
  exists s',
    Server_delete s = Ok (tt, s') /\
    m_MasterExit s' = true /\
    acceptor_is_open (m_Acceptor s') = false /\
    accepts_in_flight s' = 1%nat /\
    m_ConnectedSockets s' = m_ConnectedSockets s.
Proof.
  intros Hnew Hrun.
  apply Server_new_inv in Hnew as [_ ->].
  assert (accepting (mkServer 0 (mkAcceptor (GetServerEndPoint p_Config) true)
                              false [] false 1)) as Hacc0.
  { split; [reflexivity|]. split; [reflexivity|]. simpl. lia. }
  destruct (server_run_single_accept es _ s Hacc0 eq_refl Hrun)
    as ((_ & Hexit & _) & Hone & Hacceptor).
  split; [exact Hone|]. split; [exact Hexit|].
  split; [rewrite Hacceptor; reflexivity|].
  eexists. split; [reflexivity|]. simpl. repeat split. exact Hone.
Qed.

Lemma Server_single_accept_until_deleted_witness :
  accepts_in_flight
    (mkServer 3 (mkAcceptor (mkEndpoint "0.0.0.0" 8000) true) false
              [mkSocket 2 true] false 1) = 1%nat.
Proof.
  refine (proj1 (Server_single_accept_until_deleted
            (mkApplicationConfig Parsing.Server "127.0.0.1" 8000) 0
            (mkServer 0 (mkAcceptor (mkEndpoint "0.0.0.0" 8000) true) false [] false 1)
            [Accepted 0 (mkSocket 1 true); Accepted 24 (mkSocket 0 false); Claim;
             Accepted 0 (mkSocket 2 true)]
            (mkServer 3 (mkAcceptor (mkEndpoint "0.0.0.0" 8000) true) false
                      [mkSocket 2 true] false 1) _ _));
    reflexivity.
Defined.

End ServerMore.

(* ===================================================================== *)
(** * Further properties of the driver *)
(* ===================================================================== *)

Section DriverMore.
Import Driver.

Lemma deleted_sessions_state (socks : list socket) :
  Forall (fun s => SessionModel.m_Messages s = [] /\
                   SessionModel.m_ReadBuffer s = [] /\
                   (SessionModel.reads_in_flight s <= 1)%nat /\
                   SessionModel.reads_in_flight s = SessionModel.socket_closes s)
         (map deleted_session socks).
Proof.
  apply Forall_fmap, Forall_true. intros sock. simpl.
  repeat split. destruct (is_open sock); lia.
Qed.



(** The server never uses the configured address or role: it listens on
    any IPv4 address at the configured port, so two configurations with
    the same port give the same run on every script. *)
Theorem RunServer_ignores_address
    (c1 c2 : ApplicationConfig) (p_Listen : error_code) (script : list Completion) :
  m_Port c1 = m_Port c2 ->
  ServerModel.GetServerEndPoint c1 = ServerModel.GetServerEndPoint c2 /\
  RunServer (Some c1) p_Listen script = RunServer (Some c2) p_Listen script.
Proof.
  intros Hport.
  assert (ServerModel.GetServerEndPoint c1 = ServerModel.GetServerEndPoint c2) as Hep.
  { unfold ServerModel.GetServerEndPoint. rewrite Hport. reflexivity. }
  split; [exact Hep|].
  unfold RunServer. rewrite !Server_new_run, Hep. reflexivity.
Qed.

Lemma RunServer_ignores_address_witness :
  RunServer (Some (mkApplicationConfig Parsing.Server "10.0.0.1" 8000)) 0
            [AcceptDone 0 (mkSocket 3 true)]
  = RunServer (Some (mkApplicationConfig Parsing.Client "192.168.0.1" 8000)) 0
            [AcceptDone 0 (mkSocket 3 true)].
Proof.
  refine (proj2 (RunServer_ignores_address
            (mkApplicationConfig Parsing.Server "10.0.0.1" 8000)
            (mkApplicationConfig Parsing.Client "192.168.0.1" 8000) 0
            [AcceptDone 0 (mkSocket 3 true)] _)).
  reflexivity.
Defined.

End DriverMore.
